(** * Verification of the injestdb incremental indexer and schema differ

    Shallow embedding of [lib/indexer.js] (the unnamed source part) and
    [lib/schemas.js].  JavaScript objects used as dictionaries become
    association lists when their insertion order matters (the [updates]
    object of the history scanner, schema objects) and stdpp [gmap]s when
    only their lookups matter (the table store and the IndexMeta store). *)

From stdpp Require Import base gmap strings list.
From Stdlib Require Import Ascii.

Open Scope string_scope.
Open Scope list_scope.
Open Scope Z_scope.

(* ================================================================== *)
(** ** Exceptions *)

(** The exceptions the embedded code can raise. *)
Inductive exn :=
| TypeError        (* property access on null / undefined, [in] on a primitive *)
| SyntaxError      (* JSON.parse failure *)
| ReadError        (* archive.readFile failure *)
| ValidationError  (* a table validator threw *)
| StoreError       (* IDB.put or IDB.delete failure *)
| SchemaError.     (* util.assert in validateAndSanitize *)

(** A computation that returns normally or throws. *)
Inductive res (A : Type) :=
| Ok (a : A)
| Err (e : exn).
Arguments Ok {A} a.
Arguments Err {A} e.

Definition res_bind {A B} (m : res A) (f : A -> res B) : res B :=
  match m with Ok a => f a | Err e => Err e end.

#[global] Instance res_mret : MRet res := fun A a => Ok a.
#[global] Instance res_mbind : MBind res := fun A B f m => res_bind m f.

Definition of_option {A} (e : exn) (o : option A) : res A :=
  match o with Some a => Ok a | None => Err e end.

(* ================================================================== *)
(** ** Indexer data model *)

(** A record: a deserialised JSON object, field name to (serialised) value. *)
Abbreviation record := (gmap string string).

(** One entry of [archive.history({start, end})]. *)
Record update := mkUpdate {
  u_path : string;
  u_type : string;      (* 'put' or 'del' *)
  u_version : Z
}.

(** A table definition as the indexer uses it: [name],
    [isRecordFile(path)] and the optional [schema.validator], which returns
    the record or throws. *)
Record table := mkTable {
  t_name : string;
  t_isRecordFile : string -> bool;
  t_validator : option (record -> res record)
}.

(** An archive handle: [url], [getInfo()] (version, isOwner),
    [history({start, end})] and [readFile(path)] ([None] when the read
    fails). *)
Record archive := mkArchive {
  a_url : string;
  a_version : Z;
  a_isOwner : bool;
  a_history : Z -> Z -> list update;
  a_readFile : string -> option string
}.

(** An IndexMeta record [{_url, version, isWritable}]; [isWritable] is
    [None] when the field is absent. *)
Record meta := mkMeta {
  m_url : string;
  m_version : Z;
  m_isWritable : option bool
}.

(** Emitted notifications. *)
Inductive event :=
| IndexUpdated (table : string) (url : string) (version : Z)
| IndexesUpdated (url : string) (version : Z).

(** The table store: (table name, record key) to record. *)
Abbreviation store := (gmap (string * string) record).

(** The [db] object, restricted to what the indexer reads and writes.
    [tablePathPatterns] is [anymatch(db._tablePathPatterns, -)]. *)
Record db := mkDb {
  isOpen : bool;
  idx : bool;
  tables : list table;
  tablePathPatterns : string -> bool;
  tablesToRebuild : list string;
  indexMeta : gmap string meta;
  stores : store;
  events : list event
}.

Definition set_stores (d : db) (s : store) : db :=
  mkDb (isOpen d) (idx d) (tables d) (tablePathPatterns d) (tablesToRebuild d)
       (indexMeta d) s (events d).

Definition set_indexMeta (d : db) (m : gmap string meta) : db :=
  mkDb (isOpen d) (idx d) (tables d) (tablePathPatterns d) (tablesToRebuild d)
       m (stores d) (events d).

Definition add_events (d : db) (es : list event) : db :=
  mkDb (isOpen d) (idx d) (tables d) (tablePathPatterns d) (tablesToRebuild d)
       (indexMeta d) (stores d) (events d ++ es).

(** The per-path result of [applyUpdates]: a table name or [false]. *)
Inductive tres :=
| TName (n : string)
| TFalse.

#[global] Instance tres_eq_dec : EqDecision tres.
Proof. solve_decision. Defined.

(** JavaScript truthiness of a per-path result ([if (!tableName) continue]). *)
Definition tres_truthy (r : tres) : bool :=
  match r with TName n => negb (bool_decide (n = "")) | TFalse => false end.

(* ================================================================== *)
(** ** The indexer (lib/indexer.js)

    [indexArchive] runs under [lock('index:' + url)], so one pass of one
    archive is embedded as one state transformer.  The concurrent
    [Promise.all] of [applyUpdates] touches one record key per path and is
    embedded as a left-to-right pass over [Object.keys(updates)]. *)

Section Indexer.

(** [JSON.parse]: [None] when it throws. *)
Variable JSON_parse : string -> option record.
(** Whether [IDB.put(table, record)] succeeds (it throws otherwise). *)
Variable put_ok : string -> record -> bool.
(** Whether [IDB.delete(table, key)] succeeds (it throws otherwise). *)
Variable delete_ok : string -> string -> bool.

(** [o[k] = v] on a plain object: an existing key keeps its position, a new
    key is appended. *)
Fixpoint obj_set {A} (o : list (string * A)) (k : string) (v : A)
    : list (string * A) :=
  match o with
  | [] => [(k, v)]
  | (k', v') :: o' =>
      if bool_decide (k' = k) then (k, v) :: o' else (k', v') :: obj_set o' k v
  end.

(** [o[k]] on a plain object ([None] for [undefined]). *)
Fixpoint obj_get {A} (o : list (string * A)) (k : string) : option A :=
  match o with
  | [] => None
  | (k', v') :: o' => if bool_decide (k' = k) then Some v' else obj_get o' k
  end.

(** [scanArchiveHistoryForUpdates(db, archive, {start, end})] *)
Definition scanArchiveHistoryForUpdates (d : db) (a : archive) (start end_ : Z)
    : list (string * update) :=
  fold_left
    (fun updates u =>
       if tablePathPatterns d (u_path u)
       then obj_set updates (u_path u) u
       else updates)
    (a_history a start end_) [].

(** The loop [for (i = 0; i < tables.length; i++) if (table.isRecordFile(filepath)) ...]:
    the first matching table. *)
Fixpoint first_matching_table (ts : list table) (filepath : string) : option table :=
  match ts with
  | [] => None
  | t :: ts' => if t_isRecordFile t filepath then Some t else first_matching_table ts' filepath
  end.

(** The body of the [try] block of [readAndIndexFile]: the table name and the
    record it puts, [None] when no table matches (the loop falls through),
    or the exception thrown. *)
Definition readAndIndexFile_try (d : db) (a : archive) (filepath : string)
    : res (option (string * record)) :=
  let fileUrl := a_url a +:+ filepath in
  content ← of_option ReadError (a_readFile a filepath);
  record ← of_option SyntaxError (JSON_parse content);
  match first_matching_table (tables d) filepath with
  | None => Ok None
  | Some t =>
      record' ← (match t_validator t with
                 | Some validator => validator record
                 | None => Ok record
                 end);
      let r := <["_origin" := a_url a]> (<["_url" := fileUrl]> record') in
      if put_ok (t_name t) r then Ok (Some (t_name t, r)) else Err StoreError
  end.

(** [readAndIndexFile(db, archive, filepath)]: every exception is caught and
    logged, and [false] is returned. *)
Definition readAndIndexFile (d : db) (a : archive) (filepath : string) (s : store)
    : tres * store :=
  match readAndIndexFile_try d a filepath with
  | Ok (Some (name, r)) => (TName name, <[(name, a_url a +:+ filepath) := r]> s)
  | Ok None => (TFalse, s)
  | Err _ => (TFalse, s)
  end.

(** The body of the [try] block of [unindexFile]: the table whose record it
    deletes, [None] when no table matches (the loop falls through), or the
    exception thrown by [IDB.delete]. *)
Definition unindexFile_try (d : db) (a : archive) (filepath : string) : res (option table) :=
  let fileUrl := a_url a +:+ filepath in
  match first_matching_table (tables d) filepath with
  | None => Ok None
  | Some t => if delete_ok (t_name t) fileUrl then Ok (Some t) else Err StoreError
  end.

(** [unindexFile(db, archive, filepath)]: an exception is caught and logged,
    and [false] is returned. *)
Definition unindexFile (d : db) (a : archive) (filepath : string) (s : store)
    : tres * store :=
  match unindexFile_try d a filepath with
  | Ok (Some t) => (TName (t_name t), delete (t_name t, a_url a +:+ filepath) s)
  | Ok None => (TFalse, s)
  | Err _ => (TFalse, s)
  end.

(** The callback of [applyUpdates] for one path. *)
Definition apply_update (d : db) (a : archive) (u : update) (s : store) : tres * store :=
  if bool_decide (u_type u = "del")
  then unindexFile d a (u_path u) s
  else readAndIndexFile d a (u_path u) s.

Fixpoint apply_all (d : db) (a : archive) (updates : list (string * update)) (s : store)
    : list tres * store :=
  match updates with
  | [] => ([], s)
  | (_, u) :: updates' =>
      let '(r, s1) := apply_update d a u s in
      let '(rs, s2) := apply_all d a updates' s1 in
      (r :: rs, s2)
  end.

(** [applyUpdates(db, archive, updates)] *)
Definition applyUpdates (d : db) (a : archive) (updates : list (string * update))
    : list tres * db :=
  let '(results, s) := apply_all d a updates (stores d) in
  (results, set_stores d s).

(** [new Set(results)]: duplicates dropped, first occurrence kept. *)
Fixpoint js_set_from {A} `{EqDecision A} (seen : list A) (l : list A) : list A :=
  match l with
  | [] => seen
  | x :: l' => if bool_decide (x ∈ seen) then js_set_from seen l' else js_set_from (seen ++ [x]) l'
  end.

(** The tables the emission loop of [indexArchive] notifies, in order. *)
Definition emitted_tables (results : list tres) : list string :=
  omap (fun r => match r with
                 | TName n => if tres_truthy r then Some n else None
                 | TFalse => None
                 end) (js_set_from [] results).

(** [(await IDB.get(db._indexMeta, archive.url)) || {version: 0}].version *)
Definition stored_version (d : db) (a : archive) : Z :=
  match indexMeta d !! a_url a with Some m => m_version m | None => 0 end.

(** Modelled from the spec: [IDB.update(db._indexMeta, url, {_url, version})]
    of the idb-wrapper module (not in this source tree).  The spec says the
    pass "persist[s] the new IndexMeta with version = remoteVersion": the
    given fields are merged into the stored record, which is created when
    absent. *)
Definition IDB_update_meta (m : gmap string meta) (url : string) (version : Z)
    : gmap string meta :=
  <[url := mkMeta url version (match m !! url with Some mm => m_isWritable mm | None => None end)]> m.

(** [indexArchive(db, archive)] *)
Definition indexArchive (d : db) (a : archive) : db :=
  if negb (isOpen d) then d                 (* 'indexArchive called on closed db' *)
  else if negb (idx d) then d               (* 'indexArchive called on corrupted db' *)
  else
    let old := stored_version d a in
    if bool_decide (a_version a <= old) then d   (* indexMeta.version >= archiveMeta.version *)
    else
      let updates := scanArchiveHistoryForUpdates d a (old + 1) (a_version a + 1) in
      let '(results, d1) := applyUpdates d a updates in
      let d2 := set_indexMeta d1 (IDB_update_meta (indexMeta d1) (a_url a) (a_version a)) in
      add_events d2
        (map (fun n => IndexUpdated n (a_url a) (a_version a)) (emitted_tables results)
         ++ [IndexesUpdated (a_url a) (a_version a)]).

(** [IDB.clear(table)] *)
Definition IDB_clear (s : store) (name : string) : store :=
  filter (fun kv : (string * string) * record => kv.1.1 ≠ name) s.

(** [resetOutdatedIndexes(db)] *)
Definition resetOutdatedIndexes (d : db) : bool * db :=
  match tablesToRebuild d with
  | [] => (false, d)
  | _ :: _ =>
      let s := fold_left (fun s t => IDB_clear s (t_name t)) (tables d) (stores d) in
      let m := (fun im => mkMeta (m_url im) 0 (m_isWritable im)) <$> indexMeta d in
      (true, set_indexMeta (set_stores d s) m)
  end.

(** The first step of [addArchive(db, archive)]: [IDB.put] of a fresh
    IndexMeta at version 0. *)
Definition addArchive_persist (d : db) (a : archive) : db :=
  set_indexMeta d (<[a_url a := mkMeta (a_url a) 0 (Some (a_isOwner a))]> (indexMeta d)).

(** [addArchive(db, archive)] without the final [watchArchive]: the persist
    step, then a full indexing pass (which waits for the archive's lock, so
    other tasks may run between the two). *)
Definition addArchive (d : db) (a : archive) : db :=
  indexArchive (addArchive_persist d a) a.

End Indexer.

(* ================================================================== *)
(** ** JavaScript values (lib/schemas.js works on plain objects) *)

Set Warnings "-register-all".

Inductive jsv :=
| JUndef
| JNull
| JBool (b : bool)
| JNum (n : Z)
| JStr (s : string)
| JArr (l : list jsv)
| JObj (fields : list (string * jsv))
| JBuiltin (key : string).   (* the member [key] of Object.prototype *)

(** The properties every plain object inherits from [Object.prototype]. *)
Definition object_prototype_keys : list string :=
  ["constructor"; "__defineGetter__"; "__defineSetter__"; "hasOwnProperty";
   "__lookupGetter__"; "__lookupSetter__"; "isPrototypeOf"; "propertyIsEnumerable";
   "toString"; "valueOf"; "__proto__"; "toLocaleString"].

(** The properties an array inherits from [Array.prototype] (ES2017, the
    language of this code), besides those of [Object.prototype]. *)
Definition array_prototype_keys : list string :=
  ["concat"; "copyWithin"; "entries"; "every"; "fill"; "filter"; "find"; "findIndex";
   "forEach"; "includes"; "indexOf"; "join"; "keys"; "lastIndexOf"; "map"; "pop"; "push";
   "reduce"; "reduceRight"; "reverse"; "shift"; "slice"; "some"; "sort"; "splice";
   "toLocaleString"; "toString"; "unshift"; "values"; "constructor"].

(** The value a plain object inherits under [k]: the member of
    [Object.prototype] (a built-in function, or [Object.prototype] itself
    for [__proto__]), [undefined] when there is none. *)
Definition proto_get (k : string) : jsv :=
  if bool_decide (k ∈ object_prototype_keys) then JBuiltin k else JUndef.

(** JavaScript truthiness. *)
Definition truthy (v : jsv) : bool :=
  match v with
  | JUndef | JNull => false
  | JBool b => b
  | JNum n => negb (Z.eqb n 0)
  | JStr s => negb (bool_decide (s = ""))
  | JArr _ | JObj _ | JBuiltin _ => true
  end.

(** [x === y].  Two objects (arrays and built-ins among them) are equal
    exactly when they are the same reference; the embedding of values does
    not carry references, so [same_ref] tells whether two object operands
    are the same one. *)
Definition strict_eq (same_ref : jsv -> jsv -> bool) (x y : jsv) : bool :=
  match x, y with
  | JUndef, JUndef | JNull, JNull => true
  | JBool b1, JBool b2 => Bool.eqb b1 b2
  | JNum n1, JNum n2 => Z.eqb n1 n2
  | JStr s1, JStr s2 => bool_decide (s1 = s2)
  | (JArr _ | JObj _ | JBuiltin _), (JArr _ | JObj _ | JBuiltin _) => same_ref x y
  | _, _ => false
  end.

(** [v === null] *)
Definition is_null (v : jsv) : bool :=
  match v with JNull => true | _ => false end.

(** [v[k]]: a [TypeError] on null and undefined.  A plain object gives its
    own property, else the one it inherits from [Object.prototype], else
    [undefined].  The code reads table names only from schemas, which are
    plain objects; from other values it reads only [version], [index],
    [path], [add] and [remove], which arrays, primitives and built-ins do
    not have. *)
Definition get_prop (v : jsv) (k : string) : res jsv :=
  match v with
  | JUndef | JNull => Err TypeError
  | JObj f => Ok (match obj_get f k with Some x => x | None => proto_get k end)
  | _ => Ok JUndef
  end.

(** [v[k] = x] in sloppy mode: an assignment on a primitive is dropped.  The
    code assigns only to a schema and to its table definitions, never to an
    array or a built-in; the embedding of those carries no extra
    properties, and the assignment is dropped there too. *)
Definition set_prop (v : jsv) (k : string) (x : jsv) : res jsv :=
  match v with
  | JUndef | JNull => Err TypeError
  | JObj f => Ok (JObj (obj_set f k x))
  | _ => Ok v
  end.

(** The value of a decimal digit string, [None] when a character is not a
    digit. *)
Fixpoint parse_digits (s : string) (acc : nat) : option nat :=
  match s with
  | EmptyString => Some acc
  | String c s' =>
      let n := Ascii.nat_of_ascii c in
      if (48 <=? n)%nat && (n <=? 57)%nat then parse_digits s' (acc * 10 + (n - 48))%nat
      else None
  end.

(** A canonical array index ("0", "1", ..., no leading zero). *)
Definition array_index (k : string) : option nat :=
  match k with
  | EmptyString => None
  | String c s' =>
      if bool_decide (c = "0"%char)
      then match s' with EmptyString => Some 0%nat | _ => None end
      else parse_digits k 0
  end.

(** [k in v]: the own keys and the inherited ones; a [TypeError] when [v] is
    not an object.  An array owns its indices and [length]; a built-in of
    [Object.prototype] is given the keys it inherits from it (its own
    [length] and [name], and those of [Function.prototype], are left out:
    a built-in is never a schema). *)
Definition key_in (v : jsv) (k : string) : res bool :=
  match v with
  | JObj f => Ok (bool_decide (k ∈ map fst f) || bool_decide (k ∈ object_prototype_keys))
  | JArr l =>
      Ok (bool_decide (k = "length") ||
          match array_index k with Some i => (i <? length l)%nat | None => false end ||
          bool_decide (k ∈ array_prototype_keys) || bool_decide (k ∈ object_prototype_keys))
  | JBuiltin _ => Ok (bool_decide (k ∈ object_prototype_keys))
  | _ => Err TypeError
  end.

(** [Object.keys(v)] of a plain object. *)
Definition object_keys (v : jsv) : list string :=
  match v with JObj f => map fst f | _ => [] end.

(* ================================================================== *)
(** ** Schemas (lib/schemas.js) *)

(** [getTableNames(schema)]: all keys except 'version'. *)
Definition getTableNames (schema : jsv) : list string :=
  if negb (truthy schema) then []
  else filter (fun k => k ≠ "version") (object_keys schema).

(** [typeof v === 'object'] (also true for [null]); a built-in is a
    function, except [Object.prototype] itself. *)
Definition is_object (v : jsv) : bool :=
  match v with
  | JArr _ | JObj _ | JNull => true
  | JBuiltin k => bool_decide (k = "__proto__")
  | _ => false
  end.

Definition is_string (v : jsv) : bool :=
  match v with JStr _ => true | _ => false end.

(** [isArrayOfStrings(v)] *)
Definition isArrayOfStrings (v : jsv) : bool :=
  match v with JArr l => forallb is_string l | _ => false end.

(** [arrayify(v)] *)
Definition arrayify (v : jsv) : jsv :=
  match v with JArr _ => v | _ => JArr [v] end.

(** [assert(cond, SchemaError, msg)] of lib/util.js. *)
Definition assert (cond : bool) : res unit :=
  if cond then Ok () else Err SchemaError.

(** [validateAndSanitize(schema)]: the sanitised schema (the code mutates its
    argument in place), or the exception raised. *)
Definition validateAndSanitize (schema : jsv) : res jsv :=
  _ ← assert (truthy schema && is_object schema);
  version ← get_prop schema "version";
  _ ← assert (match version with JNum n => Z.ltb 0 n | _ => false end);
  fold_left
    (fun acc tableName =>
       sch ← acc;
       table ← get_prop sch tableName;
       match table with
       | JNull => Ok sch                       (* done, this is a deleted table *)
       | _ =>
           index ← get_prop sch "index";
           _ ← assert (negb (truthy index) || is_string index || isArrayOfStrings index);
           tindex ← get_prop table "index";
           table' ← set_prop table "index" (arrayify tindex);
           set_prop sch tableName table'
       end)
    (getTableNames schema) (Ok schema).

(** The value returned by [diff]. *)
Record diff_result := mkDiff {
  add : list (string * jsv);
  change : list (string * (jsv * jsv));
  remove : list string;
  rebuild : list string          (* [tablesToRebuild] *)
}.

Section Schemas.

(** [diffArrays] of lib/util.js (not in this source tree); the claims about
    [diff] do not depend on it. *)
Variable diffArrays : jsv -> jsv -> jsv.
(** Whether two object operands are the same reference (see [strict_eq]). *)
Variable same_ref : jsv -> jsv -> bool.

(** [diffTables(oldTableDef, newTableDef)]: [{indexDiff, needsRebuild}]. *)
Definition diffTables (oldTableDef newTableDef : jsv) : res (jsv * jsv) :=
  newIndex ← get_prop newTableDef "index";
  indexDiff ← (if truthy newIndex
               then oldIndex ← get_prop oldTableDef "index"; Ok (diffArrays oldIndex newIndex)
               else Ok (JBool false));
  newPath ← get_prop newTableDef "path";
  needsRebuild ← (if truthy newPath
                  then oldPath ← get_prop oldTableDef "path";
                       Ok (JBool (negb (strict_eq same_ref oldPath newPath)))
                  else Ok newPath);
  Ok (indexDiff, needsRebuild).

(** One iteration of the loop of [diff]. *)
Definition diff_step (oldSchema newSchema : jsv) (acc : res diff_result) (tableName : string)
    : res diff_result :=
  dr ← acc;
  oldSchemaHasTable ← (if truthy oldSchema then key_in oldSchema tableName else Ok false);
  newVal ← get_prop newSchema tableName;
  let newSchemaHasTable := negb (is_null newVal) in
  if oldSchemaHasTable && negb newSchemaHasTable then
    (* remove *)
    Ok (mkDiff (add dr) (change dr) (remove dr ++ [tableName]) (rebuild dr))
  else if negb oldSchemaHasTable && newSchemaHasTable then
    (* add *)
    Ok (mkDiff (add dr ++ [(tableName, newVal)]) (change dr) (remove dr)
               (rebuild dr ++ [tableName]))
  else if truthy newVal then
    oldVal ← get_prop oldSchema tableName;
    tableChanges ← diffTables oldVal newVal;
    let dr1 := if truthy tableChanges.1
               then mkDiff (add dr) (change dr ++ [(tableName, tableChanges)]) (remove dr) (rebuild dr)
               else dr in
    Ok (if truthy tableChanges.2
        then mkDiff (add dr1) (change dr1) (remove dr1) (rebuild dr1 ++ [tableName])
        else dr1)
  else Ok dr.

(** [diff(oldSchema, newSchema)] *)
Definition diff (oldSchema newSchema : jsv) : res diff_result :=
  _ ← (if truthy oldSchema then get_prop newSchema "version" else Ok JUndef);  (* debug message *)
  let allTableNames := js_set_from [] (getTableNames oldSchema ++ getTableNames newSchema) in
  fold_left (diff_step oldSchema newSchema) allTableNames (Ok (mkDiff [] [] [] [])).

End Schemas.

(* ================================================================== *)
(** ** File-activity subscriptions (watchArchive / unwatchArchive)

    The state of one archive handle: [archive.fileEvents] (the stream it
    names), the streams opened and not yet closed, a counter for fresh
    stream ids, and the number of [watchArchive] calls suspended at
    [await archive._loadPromise].  A JavaScript task runs until its next
    [await], so [watchArchive] is two steps when the handle has a
    [_loadPromise] (node-dat-archive) and one step otherwise. *)

Record watch_state := mkWatch {
  fileEvents : option nat;
  open_streams : list nat;
  next_stream : nat;
  suspended : nat
}.

(** [archive.fileEvents = archive.createFileActivityStream(...)]: a new
    stream is opened; the previous value of [fileEvents] is overwritten,
    not closed. *)
Definition subscribe (w : watch_state) : watch_state :=
  mkWatch (Some (next_stream w)) (next_stream w :: open_streams w)
          (S (next_stream w)) (suspended w).

(** [watchArchive(db, archive)] up to its first [await]. *)
Definition watchArchive_call (hasLoadPromise : bool) (w : watch_state) : watch_state :=
  match fileEvents w with
  | Some _ => w                      (* 'already is being watched': return *)
  | None =>
      if hasLoadPromise
      then mkWatch (fileEvents w) (open_streams w) (next_stream w) (S (suspended w))
      else subscribe w
  end.

(** A suspended [watchArchive] resuming after [await archive._loadPromise]. *)
Definition watchArchive_resume (w : watch_state) : watch_state :=
  match suspended w with
  | O => w
  | S n => subscribe (mkWatch (fileEvents w) (open_streams w) (next_stream w) n)
  end.

(** [unwatchArchive(db, archive)] *)
Definition unwatchArchive (w : watch_state) : watch_state :=
  match fileEvents w with
  | Some s => mkWatch None (filter (fun s' => s' ≠ s) (open_streams w)) (next_stream w) (suspended w)
  | None => w
  end.

(** One scheduling step on the archive handle. *)
Inductive watch_step (hasLoadPromise : bool) : watch_state -> watch_state -> Prop :=
| step_watch w : watch_step hasLoadPromise w (watchArchive_call hasLoadPromise w)
| step_resume w : (0 < suspended w)%nat -> watch_step hasLoadPromise w (watchArchive_resume w)
| step_unwatch w : watch_step hasLoadPromise w (unwatchArchive w).

(** A fresh handle: not watched, no stream. *)
Definition watch_init : watch_state := mkWatch None [] 0 0.

(* ================================================================== *)
(** ** Vocabulary of the properties *)

(** The entries of the window that the scanner keeps under key [p]. *)
Definition kept_for (d : db) (p : string) (history : list update) : list update :=
  filter (fun u => u_path u = p /\ tablePathPatterns d (u_path u) = true) history.

Section Vocabulary.
Variable JSON_parse : string -> option record.
Variable put_ok : string -> record -> bool.
Variable delete_ok : string -> string -> bool.

(** The value [applyUpdates] returns for one update (it does not depend on the
    store, see [apply_update_split]). *)
Definition path_result (d : db) (a : archive) (u : update) : tres :=
  fst (apply_update JSON_parse put_ok delete_ok d a u ∅).

(** The single store write the update performs: a key and the record put
    there ([None] for a deletion), or no write. *)
Definition path_write (d : db) (a : archive) (u : update)
    : option ((string * string) * option record) :=
  if bool_decide (u_type u = "del") then
    match unindexFile_try delete_ok d a (u_path u) with
    | Ok (Some t) => Some ((t_name t, a_url a +:+ u_path u), None)
    | _ => None
    end
  else
    match readAndIndexFile_try JSON_parse put_ok d a (u_path u) with
    | Ok (Some (name, r)) => Some ((name, a_url a +:+ u_path u), Some r)
    | _ => None
    end.

End Vocabulary.

Definition apply_write (w : option ((string * string) * option record)) (s : store) : store :=
  match w with
  | Some (k, Some r) => <[k := r]> s
  | Some (k, None) => delete k s
  | None => s
  end.

Definition run_writes (ws : list (option ((string * string) * option record))) (s : store) : store :=
  fold_left (fun s w => apply_write w s) ws s.

(** What a write does at key [k]: [Some v] when it sets [k] to [v]. *)
Definition write_at (k : string * string) (w : option ((string * string) * option record))
    : option (option record) :=
  match w with
  | Some (k', v) => if bool_decide (k' = k) then Some v else None
  | None => None
  end.

(** The persisted indexed version of the archive at [url]. *)
Definition ver (d : db) (url : string) : option Z := m_version <$> indexMeta d !! url.

(** No persisted version goes down from [d] to [d']. *)
Definition never_decreases (d d' : db) : Prop :=
  forall url v v', ver d url = Some v -> ver d' url = Some v' -> v <= v'.

(** The operations of the indexer that write IndexMeta records. *)
Inductive meta_op :=
| OpIndexArchive (a : archive)
| OpResetOutdatedIndexes
| OpAddArchivePersist (a : archive).

Definition run_meta_op (JSON_parse : string -> option record) (put_ok : string -> record -> bool)
    (delete_ok : string -> string -> bool) (o : meta_op) (d : db) : db :=
  match o with
  | OpIndexArchive a => indexArchive JSON_parse put_ok delete_ok d a
  | OpResetOutdatedIndexes => snd (resetOutdatedIndexes d)
  | OpAddArchivePersist a => addArchive_persist d a
  end.

(** The name a result contributes to the emission loop. *)
Definition emitted_name (r : tres) : option string :=
  match r with
  | TName n => if tres_truthy r then Some n else None
  | TFalse => None
  end.





(* ================================================================== *)
(** ** Table bookkeeping and index creation (lib/schemas.js) *)

(** [arr[k]] on an array: its [length], the element at a canonical index, or
    [undefined] past the end.  Any other key (an inherited method among them)
    is given as [undefined]: the code only tests the result against
    [null]. *)
Definition js_array_get (l : list jsv) (k : string) : jsv :=
  if bool_decide (k = "length") then JNum (Z.of_nat (length l))
  else match array_index k with
       | Some i => default JUndef (nth_error l i)
       | None => JUndef
       end.

(** [v[k]] for the values the [db.schemas] slot holds: an array, or a
    value written over it. *)
Definition js_get (v : jsv) (k : string) : res jsv :=
  match v with JArr l => Ok (js_array_get l k) | _ => get_prop v k end.

(** [set.add(x)] on a [Set] kept as its insertion-ordered list of members. *)
Definition set_add (s : list string) (x : string) : list string :=
  if bool_decide (x ∈ s) then s else s ++ [x].

(** [set.delete(x)] *)
Definition set_delete (s : list string) (x : string) : list string :=
  filter (fun y => y ≠ x) s.

(** The own properties of the [db] object, in insertion order; [schemas] is
    the array of the registered schemas. *)
Abbreviation dbobj := (list (string * jsv)).

(** The callback of [getTableNames(schema).forEach] in [getActiveTableNames]. *)
Definition active_table_step (schema : jsv) (acc : res (list string)) (tableName : string)
    : res (list string) :=
  tableNames ← acc;
  v ← get_prop schema tableName;
  Ok (if is_null v then set_delete tableNames tableName
      else set_add tableNames tableName).

(** The callback of [db.schemas.forEach] in [getActiveTableNames]. *)
Definition active_schema_step (acc : res (list string)) (schema : jsv) : res (list string) :=
  tableNames ← acc;
  fold_left (active_table_step schema) (getTableNames schema) (Ok tableNames).

(** [getActiveTableNames(db)]: [db.schemas.forEach] throws a [TypeError]
    when [db.schemas] is not an array. *)
Definition getActiveTableNames (dbo : dbobj) : res (list string) :=
  schemas ← get_prop (JObj dbo) "schemas";
  match schemas with
  | JArr l => fold_left active_schema_step l (Ok [])
  | _ => Err TypeError
  end.

(** The callback of [tableNames.forEach] in [addTables]: [db.schemas] is
    read again at every iteration. *)
Definition addTables_step (acc : res dbobj) (tableName : string) : res dbobj :=
  o ← acc;
  schemas ← get_prop (JObj o) "schemas";
  v ← js_get schemas tableName;
  Ok (if is_null v then o                (* deleted table *)
      else obj_set o tableName (JBool true)).

(** [addTables(db)] *)
Definition addTables (dbo : dbobj) : res dbobj :=
  tableNames ← getActiveTableNames dbo;
  fold_left addTables_step tableNames (Ok dbo).

(** [delete o[k]] *)
Definition obj_delete {A} (o : list (string * A)) (k : string) : list (string * A) :=
  filter (fun kv => kv.1 ≠ k) o.

(** [removeTables(db)] *)
Definition removeTables (dbo : dbobj) : res dbobj :=
  tableNames ← getActiveTableNames dbo;
  Ok (fold_left obj_delete tableNames dbo).

(** [s.split(sep)] for a one-character separator. *)
Fixpoint js_split (sep : Ascii.ascii) (s : string) : list string :=
  match s with
  | EmptyString => [""]
  | String c s' =>
      let parts := js_split sep s' in
      if bool_decide (c = sep) then "" :: parts
      else match parts with
           | p :: ps => String c p :: ps
           | [] => [String c ""]
           end
  end.

(** The calls made on an object store, in order. *)
Inductive store_call :=
| CreateIndex (name : string) (keyPath : jsv) (multiEntry : bool)
| DeleteIndex (name : jsv).

(** [addIndex(tableStore, index)]: [index.split] throws a [TypeError] when
    [index] is not a string. *)
Definition addIndex (calls : list store_call) (index : jsv) : res (list store_call) :=
  match index with
  | JStr i =>
      let keyPath := js_split "+"%char i in
      if bool_decide (1 < length keyPath)%nat
      then Ok (calls ++ [CreateIndex i (JArr (map JStr keyPath)) true])     (* compound index *)
      else Ok (calls ++ [CreateIndex i (JStr (default "" (head keyPath))) false])  (* simple index *)
  | _ => Err TypeError
  end.

(** [removeIndex(tableStore, index)] *)
Definition removeIndex (calls : list store_call) (index : jsv) : res (list store_call) :=
  Ok (calls ++ [DeleteIndex index]).

(** [arr.forEach(fn)] with a callback that threads the calls made so far:
    a [TypeError] when [arr] is not an array (it has no [forEach]). *)
Definition js_forEach (fn : list store_call -> jsv -> res (list store_call)) (arr : jsv)
    (calls : list store_call) : res (list store_call) :=
  match arr with
  | JArr l => fold_left (fun acc v => calls ← acc; fn calls v) l (Ok calls)
  | _ => Err TypeError
  end.

(** The calls [applyDiff] makes on the upgrade transaction, in order. *)
Inductive upgrade_call :=
| DeleteObjectStore (name : string)                  (* tx.db.deleteObjectStore(name) *)
| CreateObjectStore (name : string) (options : string) (* tx.db.createObjectStore(name, options) *)
| StoreCall (name : string) (c : store_call).         (* a call on the object store [name] *)

(** The callback of [diff.add.forEach] in [applyDiff]: create the table's
    object store, then its indexes. *)
Definition applyDiff_add (acc : res (list upgrade_call)) (entry : string * jsv)
    : res (list upgrade_call) :=
  calls ← acc;
  let tableName := entry.1 in
  let tableDef := entry.2 in
  index ← get_prop tableDef "index";
  storeCalls ← js_forEach addIndex index [];
  Ok (calls ++ CreateObjectStore tableName "url" :: map (StoreCall tableName) storeCalls).

(** The callback of [diff.change.forEach] in [applyDiff]: drop the removed
    indexes, then add the new ones. *)
Definition applyDiff_change (acc : res (list upgrade_call)) (entry : string * (jsv * jsv))
    : res (list upgrade_call) :=
  calls ← acc;
  let tableName := entry.1 in
  let tableChanges := entry.2 in
  removed ← get_prop tableChanges.1 "remove";      (* tableChanges.indexDiff.remove *)
  storeCalls ← js_forEach removeIndex removed [];
  added ← get_prop tableChanges.1 "add";           (* tableChanges.indexDiff.add *)
  storeCalls ← js_forEach addIndex added storeCalls;
  Ok (calls ++ map (StoreCall tableName) storeCalls).

(** [applyDiff(db, upgradeTransaction, diff)]: the calls made on the
    transaction, or the exception thrown. *)
Definition applyDiff (dr : diff_result) : res (list upgrade_call) :=
  calls ← fold_left applyDiff_add (add dr) (Ok (map DeleteObjectStore (remove dr)));
  fold_left applyDiff_change (change dr) (Ok calls).

(* ================================================================== *)
(** ** Unindexing and waiting (lib/indexer.js) *)

Section Unindex.

(** [table.listRecordFiles(archive)] of lib/table.js (not in this source
    tree), left abstract: the [{table, recordUrl}] matches it returns. *)
Variable listRecordFiles : table -> archive -> list (table * string).

(** [scanArchiveForRecords(db, archive)]: [flatten] of the per-table lists. *)
Definition scanArchiveForRecords (d : db) (a : archive) : list (table * string) :=
  concat (map (fun t => listRecordFiles t a) (tables d)).

(** [unindexArchive(db, archive)] under its lock: the deletions of
    [Promise.all] commute and are embedded in list order, then the
    archive's IndexMeta record is deleted. *)
Definition unindexArchive (d : db) (a : archive) : db :=
  let recordMatches := scanArchiveForRecords d a in
  let s := fold_left (fun s m => delete (t_name m.1, m.2) s) recordMatches (stores d) in
  set_indexMeta (set_stores d s) (delete (a_url a) (indexMeta d)).

(** [removeArchive(db, archive)], on the db and the archive handle. *)
Definition removeArchive (d : db) (a : archive) (w : watch_state) : db * watch_state :=
  (unindexArchive d a, unwatchArchive w).

End Unindex.

(** [waitTillIndexed(db, archive)]: [None] when it returns at once, or
    [Some target] when it subscribes [onIndex] and waits, [target] being
    [archiveMeta.version]. *)
Definition waitTillIndexed (d : db) (a : archive) : option Z :=
  if bool_decide (a_version a <= stored_version d a) then None else Some (a_version a).

(** Whether [onIndex], subscribed to 'indexes-updated' by a wait for [a] at
    [target], resolves on an event. *)
Definition onIndex_resolves (a : archive) (target : Z) (e : event) : bool :=
  match e with
  | IndexesUpdated url version => bool_decide (url = a_url a) && bool_decide (target <= version)
  | IndexUpdated _ _ _ => false
  end.

(* ================================================================== *)
(** ** Vocabulary of the further properties *)

(** The last schema of [schemas] that declares [t], and what it maps [t] to. *)
Definition table_decl (schema : jsv) (t : string) : option jsv :=
  if bool_decide (t ∈ getTableNames schema)
  then match get_prop schema t with Ok v => Some v | Err _ => None end
  else None.

Definition last_decl (schemas : list jsv) (t : string) : option jsv :=
  last (omap (fun schema => table_decl schema t) schemas).

Definition is_plain_object (v : jsv) : Prop :=
  match v with JObj _ => True | _ => False end.

(** [s] contains the character [c]. *)
Fixpoint str_has (c : Ascii.ascii) (s : string) : bool :=
  match s with
  | EmptyString => false
  | String c' s' => bool_decide (c' = c) || str_has c s'
  end.

(** [parts.join(sep)] *)
Fixpoint js_join (sep : string) (parts : list string) : string :=
  match parts with
  | [] => ""
  | [p] => p
  | p :: ps => p +:+ sep +:+ js_join sep ps
  end.

(** The version test of [validateAndSanitize] passes: an object whose
    [version] is a positive number. *)
Definition valid_version (schema : jsv) : bool :=
  match schema with
  | JObj f => match obj_get f "version" with Some (JNum n) => Z.ltb 0 n | _ => false end
  | _ => false
  end.

(** What [table.index = arrayify(table.index)] makes of a table definition. *)
Definition sanitize_table (v : jsv) : jsv :=
  match v with
  | JObj tf => JObj (obj_set tf "index" (arrayify (default JUndef (obj_get tf "index"))))
  | _ => v
  end.

(** A schema's fields with every table definition sanitised. *)
Definition sanitize_fields (f : list (string * jsv)) : list (string * jsv) :=
  map (fun kv => if bool_decide (kv.1 = "version") then kv else (kv.1, sanitize_table kv.2)) f.

(** The schema's fields with the tables named in [P] sanitised. *)
Definition sanitize_tables (P : list string) (f : list (string * jsv)) : list (string * jsv) :=
  map (fun kv => if bool_decide (kv.1 ∈ P) then (kv.1, sanitize_table kv.2) else kv) f.

(** Every table of the schema is defined by an object or is [null]. *)
Definition tables_are_objects (f : list (string * jsv)) : Prop :=
  Forall (fun kv => kv.1 = "version" \/ kv.2 = JNull \/ exists tf, kv.2 = JObj tf) f.

(** The schema declares a table named [index] (an object). *)
Definition declares_index_table (f : list (string * jsv)) : bool :=
  match obj_get f "index" with Some (JObj _) => true | _ => false end.

(** The archive handle holds at most one open stream, the one in
    [archive.fileEvents], and no [watchArchive] call is suspended. *)
Definition single_subscription (w : watch_state) : Prop :=
  suspended w = 0%nat /\
  match fileEvents w with None => open_streams w = [] | Some s => open_streams w = [s] end.

(* ================================================================== *)
(** ** Sample inputs *)

(** A table [posts] of the files under /posts/, without validator. *)
Definition sample_table : table :=
  mkTable "posts" (fun p => String.prefix "/posts/" p) None.

(** The history of an archive at version 5: /posts/a.json written, deleted
    and written again, /posts/b.json written once, and a file outside every
    table. *)
Definition sample_history (start end_ : Z) : list update :=
  filter (fun u => start <= u_version u < end_)
    [mkUpdate "/posts/a.json" "put" 1; mkUpdate "/readme.md" "put" 2;
     mkUpdate "/posts/b.json" "put" 3; mkUpdate "/posts/a.json" "del" 4;
     mkUpdate "/posts/a.json" "put" 5].

(** Every file reads as its own path. *)
Definition sample_archive : archive :=
  mkArchive "dat://sample" 5 true sample_history (fun p => Some p).

(** [JSON.parse] that throws on the content of /posts/b.json. *)
Definition sample_parse (content : string) : option record :=
  if bool_decide (content = "/posts/b.json") then None else Some {[ "content" := content ]}.

Definition sample_put_ok (_ : string) (_ : record) : bool := true.

Definition sample_delete_ok (_ _ : string) : bool := true.

(** An [IDB.delete] that always throws. *)
Definition sample_delete_fails (_ _ : string) : bool := false.

(** A db with the [posts] table, the sample archive indexed up to [version],
    and the given tables flagged for rebuild. *)
Definition sample_db (open : bool) (version : Z) (rebuild : list string) : db :=
  mkDb open true [sample_table] (fun p => String.prefix "/posts/" p) rebuild
       {[ "dat://sample" := mkMeta "dat://sample" version (Some true) ]}
       {[ ("posts", "dat://sample/posts/old.json") := {[ "content" := "old" ]} ]} [].

(** The sample archive at version 4, where the last change of /posts/a.json
    is its deletion. *)
Definition sample_archive_v4 : archive :=
  mkArchive "dat://sample" 4 true sample_history (fun p => Some p).

(** The sample db, open and at version 0, with a record of /posts/a.json. *)
Definition sample_db_with_a : db :=
  set_stores (sample_db true 0 [])
    (<[("posts", "dat://sample/posts/a.json") := {[ "content" := "a" ]}]> (stores (sample_db true 0 []))).











(** A [diffArrays] that reports no index difference. *)
Definition sample_diffArrays (_ _ : jsv) : jsv := JBool false.

(** Schemas written as separate object literals: no two object operands are
    the same reference. *)
Definition sample_same_ref (_ _ : jsv) : bool := false.

(** A schema whose table [posts] has a malformed index specifier (a number). *)
Definition schema_bad_table_index : jsv :=
  JObj [("version", JNum 1); ("posts", JObj [("index", JNum 5)])].

(** The same value of [index] at the top level of the schema. *)
Definition schema_bad_top_index : jsv :=
  JObj [("version", JNum 1); ("index", JNum 5); ("posts", JObj [("index", JStr "title")])].

(** The fields of a schema with a table [posts] indexed on [title] and
    [tags], and a deleted table [drafts]. *)
Definition sample_schema_fields : list (string * jsv) :=
  [("version", JNum 3);
   ("posts", JObj [("path", JStr "/posts/*.json"); ("index", JStr "title+tags")]);
   ("drafts", JNull)].

(** The fields of a schema that declares a table named [index]. *)
Definition schema_index_table_fields : list (string * jsv) :=
  [("version", JNum 1); ("index", JObj [("index", JStr "name")])].

(** A [db] object with three registered schemas: version 2 drops [posts] and
    adds [y], version 3 brings [posts] back. *)
Definition sample_schemas : list jsv :=
  [JObj [("version", JNum 1); ("posts", JObj []); ("x", JObj [])];
   JObj [("version", JNum 2); ("posts", JNull); ("y", JObj [])];
   JObj [("version", JNum 3); ("posts", JObj [])]].

Definition sample_dbobj : dbobj :=
  [("schemas", JArr sample_schemas); ("name", JStr "db")].

(* ================================================================== *)
(** * Properties *)

(** ** Plain objects used as dictionaries *)

Section ObjLemmas.
Context {A : Type}.

Lemma obj_get_obj_set (o : list (string * A)) (k p : string) (v : A) :
  obj_get (obj_set o k v) p = if bool_decide (k = p) then Some v else obj_get o p.
Proof.
  induction o as [|[k' v'] o IH]; simpl.
  - done.
  - destruct (decide (k' = k)) as [->|Hk'].
    + rewrite bool_decide_true by done. simpl. case_bool_decide; done.
    + rewrite bool_decide_false by done. simpl.
      rewrite IH. destruct (decide (k' = p)) as [->|Hp].
      * rewrite (bool_decide_true (p = p)) by done.
        rewrite bool_decide_false by congruence. done.
      * rewrite (bool_decide_false (k' = p)) by done. done.
Qed.

Lemma keys_obj_set (o : list (string * A)) (k : string) (v : A) :
  map fst (obj_set o k v) =
  if bool_decide (k ∈ map fst o) then map fst o else map fst o ++ [k].
Proof.
  induction o as [|[k' v'] o IH]; cbn [obj_set map fst].
  - rewrite bool_decide_false by set_solver. done.
  - destruct (decide (k' = k)) as [->|Hk'].
    + rewrite (bool_decide_true (k = k)) by done. cbn [map fst].
      rewrite bool_decide_true by set_solver. done.
    + rewrite (bool_decide_false (k' = k)) by done. cbn [map fst]. rewrite IH.
      case_bool_decide as Hin; case_bool_decide as Hin'; try done.
      * exfalso. apply Hin'. set_solver.
      * exfalso. apply Hin. set_solver.
Qed.

Lemma NoDup_keys_obj_set (o : list (string * A)) (k : string) (v : A) :
  NoDup (map fst o) -> NoDup (map fst (obj_set o k v)).
Proof.
  intros Hnd. rewrite keys_obj_set. case_bool_decide as Hin; [done|].
  apply NoDup_app. split; [done|]. split; [|apply NoDup_singleton].
  intros x Hx Hx'. apply list_elem_of_singleton in Hx'. subst. done.
Qed.

Lemma obj_set_Forall (P : string * A -> Prop) (o : list (string * A)) (k : string) (v : A) :
  Forall P o -> P (k, v) -> Forall P (obj_set o k v).
Proof.
  induction o as [|[k' v'] o IH]; simpl; intros Ho Hkv.
  - by constructor.
  - inversion Ho; subst. case_bool_decide; constructor; auto.
Qed.

End ObjLemmas.

(** ** History scanner *)

Lemma scan_fold_get (d : db) (history : list update) (o : list (string * update)) (p : string) :
  obj_get (fold_left
             (fun updates u =>
                if tablePathPatterns d (u_path u)
                then obj_set updates (u_path u) u
                else updates) history o) p =
  match last (kept_for d p history) with Some u => Some u | None => obj_get o p end.
Proof.
  revert o. induction history as [|u history IH]; intros o; simpl.
  - done.
  - rewrite IH. unfold kept_for. rewrite filter_cons.
    destruct (tablePathPatterns d (u_path u)) eqn:Hm.
    + rewrite obj_get_obj_set. case_bool_decide as Hp.
      * rewrite decide_True by (split; congruence). rewrite last_cons.
        destruct (last _); done.
      * rewrite decide_False by naive_solver. done.
    + rewrite decide_False by naive_solver. done.
Qed.

Lemma scan_fold_invariant (d : db) (history : list update) (o : list (string * update)) :
  NoDup (map fst o) ->
  Forall (fun kv => u_path kv.2 = kv.1 /\ tablePathPatterns d kv.1 = true) o ->
  let o' := fold_left
              (fun updates u =>
                 if tablePathPatterns d (u_path u)
                 then obj_set updates (u_path u) u
                 else updates) history o in
  NoDup (map fst o') /\
  Forall (fun kv => u_path kv.2 = kv.1 /\ tablePathPatterns d kv.1 = true) o'.
Proof.
  revert o. induction history as [|u history IH]; intros o Hnd Hf; simpl.
  - done.
  - apply IH; destruct (tablePathPatterns d (u_path u)) eqn:Hm.
    + by apply NoDup_keys_obj_set.
    + done.
    + apply obj_set_Forall; [done|]. simpl. done.
    + done.
Qed.

(** C3: [scanArchiveHistoryForUpdates] keeps only the history entries of the
    window whose path matches a table's record-file pattern, and maps each
    such path to the last of its entries in history order, so later entries
    overwrite earlier ones and only the final state of a path is applied. *)
Theorem scanArchiveHistoryForUpdates_latest (d : db) (a : archive) (start end_ : Z) :
  let updates := scanArchiveHistoryForUpdates d a start end_ in
  (forall p, obj_get updates p = last (kept_for d p (a_history a start end_))) /\
  NoDup (map fst updates) /\
  Forall (fun kv => u_path kv.2 = kv.1 /\ tablePathPatterns d kv.1 = true) updates.
Proof.
  unfold scanArchiveHistoryForUpdates. split; [|split].
  - intros p. rewrite scan_fold_get. simpl. destruct (last _); done.
  - apply scan_fold_invariant; [constructor|constructor].
  - apply scan_fold_invariant; [constructor|constructor].
Qed.

(** ** Update applier *)

Section ApplierProofs.
Context (JSON_parse : string -> option record) (put_ok : string -> record -> bool)
  (delete_ok : string -> string -> bool).

Lemma apply_update_split (d : db) (a : archive) (u : update) (s : store) :
  apply_update JSON_parse put_ok delete_ok d a u s =
  (path_result JSON_parse put_ok delete_ok d a u, apply_write (path_write JSON_parse put_ok delete_ok d a u) s).
Proof.
  unfold path_result, path_write, apply_update, readAndIndexFile, unindexFile.
  case_bool_decide.
  - destruct (unindexFile_try _ _ _ _) as [[t|]|e]; done.
  - destruct (readAndIndexFile_try _ _ _ _ _) as [[[n r]|]|e]; done.
Qed.

Lemma apply_all_split (d : db) (a : archive) (ups : list (string * update)) (s : store) :
  apply_all JSON_parse put_ok delete_ok d a ups s =
  (map (fun ku => path_result JSON_parse put_ok delete_ok d a ku.2) ups,
   run_writes (map (fun ku => path_write JSON_parse put_ok delete_ok d a ku.2) ups) s).
Proof.
  revert s. induction ups as [|[k u] ups IH]; intros s; simpl; [done|].
  rewrite apply_update_split, IH. done.
Qed.

Lemma path_result_set_stores (d : db) (s : store) (a : archive) (u : update) :
  path_result JSON_parse put_ok delete_ok (set_stores d s) a u = path_result JSON_parse put_ok delete_ok d a u.
Proof. reflexivity. Qed.

Lemma path_write_set_stores (d : db) (s : store) (a : archive) (u : update) :
  path_write JSON_parse put_ok delete_ok (set_stores d s) a u = path_write JSON_parse put_ok delete_ok d a u.
Proof. reflexivity. Qed.

Lemma apply_write_lookup (w : option ((string * string) * option record)) (s : store) (k : string * string) :
  apply_write w s !! k = match write_at k w with Some v => v | None => s !! k end.
Proof.
  destruct w as [[k' [r|]]|]; simpl; [| |done].
  - case_bool_decide as Hk.
    + subst. by rewrite lookup_insert_eq.
    + by rewrite lookup_insert_ne.
  - case_bool_decide as Hk.
    + subst. by rewrite lookup_delete_eq.
    + by rewrite lookup_delete_ne.
Qed.

Lemma run_writes_cons (w : option ((string * string) * option record)) (ws : list (option ((string * string) * option record))) (s : store) :
  run_writes (w :: ws) s = run_writes ws (apply_write w s).
Proof. reflexivity. Qed.

Lemma omap_cons_eq {A B} (f : A -> option B) (x : A) (l : list A) :
  omap f (x :: l) = match f x with Some y => y :: omap f l | None => omap f l end.
Proof. reflexivity. Qed.

Lemma run_writes_lookup (ws : list (option ((string * string) * option record))) (s : store) (k : string * string) :
  run_writes ws s !! k =
  match last (omap (write_at k) ws) with Some v => v | None => s !! k end.
Proof.
  revert s. induction ws as [|w ws IH]; intros s; [done|].
  rewrite run_writes_cons, IH, omap_cons_eq.
  destruct (write_at k w) eqn:Hw.
  - rewrite last_cons. destruct (last (omap (write_at k) ws)); [done|].
    rewrite apply_write_lookup, Hw. done.
  - destruct (last (omap (write_at k) ws)); [done|].
    rewrite apply_write_lookup, Hw. done.
Qed.

Lemma run_writes_idempotent (ws : list (option ((string * string) * option record))) (s : store) :
  run_writes ws (run_writes ws s) = run_writes ws s.
Proof.
  apply map_eq. intros k. rewrite !run_writes_lookup.
  destruct (last (omap (write_at k) ws)); done.
Qed.

(** A write for path [q] never touches a key of another path. *)
Lemma write_at_other_path (d : db) (a : archive) (u : update) (t p : string) :
  u_path u ≠ p ->
  write_at (t, a_url a +:+ p) (path_write JSON_parse put_ok delete_ok d a u) = None.
Proof.
  intros Hne. unfold path_write.
  assert (Hk : forall n, (n, a_url a +:+ u_path u) ≠ (t, a_url a +:+ p)).
  { intros n Heq. injection Heq as _ Heq. apply (inj (String.append (a_url a))) in Heq. done. }
  case_bool_decide.
  - destruct (unindexFile_try _ _ _ _) as [[tb|]|e]; simpl; try done.
    rewrite bool_decide_false; [done|]. apply Hk.
  - destruct (readAndIndexFile_try _ _ _ _ _) as [[[n r]|]|e]; simpl; try done.
    rewrite bool_decide_false; [done|]. apply Hk.
Qed.

Lemma run_writes_untouched (d : db) (a : archive) (ups : list (string * update)) (s : store) (t p : string) :
  Forall (fun ku => u_path ku.2 ≠ p) ups ->
  run_writes (map (fun ku => path_write JSON_parse put_ok delete_ok d a ku.2) ups) s !! (t, a_url a +:+ p)
  = s !! (t, a_url a +:+ p).
Proof.
  revert s. induction ups as [|[k u] ups IH]; intros s Hall; [done|].
  inversion Hall as [|? ? Hu Hrest]; subst. simpl in Hu.
  cbn [map]. rewrite run_writes_cons, IH by done.
  rewrite apply_write_lookup, write_at_other_path by done. done.
Qed.

(** In an update object whose keys are distinct and name their entry's path,
    the record key of a path holds what that path's own update wrote. *)
Lemma run_writes_own_key (d : db) (a : archive) (ups : list (string * update)) (s : store)
    (q : string) (u : update) (t : string) :
  NoDup (map fst ups) ->
  Forall (fun ku => u_path ku.2 = ku.1) ups ->
  (q, u) ∈ ups ->
  run_writes (map (fun ku => path_write JSON_parse put_ok delete_ok d a ku.2) ups) s !! (t, a_url a +:+ q)
  = apply_write (path_write JSON_parse put_ok delete_ok d a u) s !! (t, a_url a +:+ q).
Proof.
  revert s. induction ups as [|[k u0] ups IH]; intros s Hnd Hall Hin.
  - by apply elem_of_nil in Hin.
  - simpl in Hnd. apply NoDup_cons in Hnd as [Hk Hnd].
    inversion Hall as [|? ? Hu0 Hrest]; subst. simpl in Hu0.
    cbn [map]. rewrite run_writes_cons.
    apply elem_of_cons in Hin as [Heq|Hin].
    + injection Heq as -> ->.
      apply run_writes_untouched.
      apply Forall_forall. intros [k' u'] Hku'. simpl. intros Hp.
      apply Hk. rewrite Forall_forall in Hrest. specialize (Hrest _ Hku'). simpl in Hrest.
      apply list_elem_of_fmap. exists (k', u'). simpl. split; [congruence|done].
    + rewrite IH by done.
      rewrite !apply_write_lookup.
      destruct (write_at _ (path_write _ _ _ _ _ u)); [done|].
      rewrite write_at_other_path; [done|].
      intros Hp. simpl in Hp. apply Hk. rewrite <- Hu0, Hp.
      apply list_elem_of_fmap. exists (q, u). done.
Qed.

End ApplierProofs.

(** ** Notifications *)

Lemma js_set_from_spec {A} `{EqDecision A} (seen l : list A) :
  NoDup seen ->
  NoDup (js_set_from seen l) /\ (forall x, x ∈ js_set_from seen l <-> x ∈ seen \/ x ∈ l).
Proof.
  revert seen. induction l as [|y l IH]; intros seen Hnd; simpl.
  - split; [done|]. intros x. set_solver.
  - case_bool_decide as Hy.
    + destruct (IH seen Hnd) as [H1 H2]. split; [done|].
      intros x. rewrite H2. set_solver.
    + assert (Hnd' : NoDup (seen ++ [y])).
      { apply NoDup_app. split; [done|]. split; [|apply NoDup_singleton].
        intros z Hz Hz'. apply list_elem_of_singleton in Hz'. subst. done. }
      destruct (IH _ Hnd') as [H1 H2]. split; [done|].
      intros x. rewrite H2. set_solver.
Qed.

Lemma emitted_name_Some (r : tres) (n : string) :
  emitted_name r = Some n <-> r = TName n /\ n ≠ "".
Proof.
  destruct r as [m|]; simpl; [|split; [done|intros [? _]; done]].
  case_bool_decide as Hm; simpl; split.
  - done.
  - intros [Heq Hn]. injection Heq as ->. done.
  - intros Heq. injection Heq as ->. done.
  - intros [Heq _]. injection Heq as ->. done.
Qed.

Lemma NoDup_omap_emitted (l : list tres) :
  NoDup l -> NoDup (omap emitted_name l).
Proof.
  induction l as [|r l IH]; intros Hnd; simpl; [constructor|].
  apply NoDup_cons in Hnd as [Hr Hnd].
  destruct (emitted_name r) as [n|] eqn:Hn; [|by apply IH].
  constructor; [|by apply IH].
  intros Hin. apply list_elem_of_omap in Hin as [r' [Hr' Hn']].
  apply emitted_name_Some in Hn as [-> _]. apply emitted_name_Some in Hn' as [-> _]. done.
Qed.

Lemma emitted_tables_spec (results : list tres) :
  NoDup (emitted_tables results) /\
  (forall n, n ∈ emitted_tables results <-> TName n ∈ results /\ n ≠ "").
Proof.
  destruct (js_set_from_spec [] results) as [Hnd Hmem]; [constructor|].
  unfold emitted_tables. fold emitted_name. split.
  - by apply NoDup_omap_emitted.
  - intros n. rewrite list_elem_of_omap. split.
    + intros [r [Hr Hn]]. apply emitted_name_Some in Hn as [-> Hn].
      apply Hmem in Hr as [Hr|Hr]; [by apply elem_of_nil in Hr|done].
    + intros [Hr Hn]. exists (TName n). split.
      * apply Hmem. by right.
      * by apply emitted_name_Some.
Qed.

(** ** Indexing pass *)

Section IndexerProofs.
Context (JSON_parse : string -> option record) (put_ok : string -> record -> bool)
  (delete_ok : string -> string -> bool).

Lemma scan_wf (d : db) (a : archive) (start end_ : Z) :
  let updates := scanArchiveHistoryForUpdates d a start end_ in
  NoDup (map fst updates) /\ Forall (fun ku => u_path ku.2 = ku.1) updates.
Proof.
  destruct (scan_fold_invariant d (a_history a start end_) []) as [H1 H2];
    [constructor|constructor|].
  split; [done|]. eapply Forall_impl; [exact H2|]. intros ku [Hk _]. done.
Qed.

Lemma indexArchive_skip (d : db) (a : archive) :
  isOpen d = false \/ idx d = false \/ a_version a <= stored_version d a ->
  indexArchive JSON_parse put_ok delete_ok d a = d.
Proof.
  intros H. unfold indexArchive.
  destruct (isOpen d) eqn:Ho; [|done]. destruct (idx d) eqn:Hi; [|done].
  simpl. rewrite bool_decide_true; [done|].
  destruct H as [H|[H|H]]; [discriminate|discriminate|done].
Qed.

Lemma indexArchive_run (d : db) (a : archive) :
  isOpen d = true -> idx d = true -> stored_version d a < a_version a ->
  let updates := scanArchiveHistoryForUpdates d a (stored_version d a + 1) (a_version a + 1) in
  let results := map (fun ku => path_result JSON_parse put_ok delete_ok d a ku.2) updates in
  indexArchive JSON_parse put_ok delete_ok d a =
  mkDb (isOpen d) (idx d) (tables d) (tablePathPatterns d) (tablesToRebuild d)
       (IDB_update_meta (indexMeta d) (a_url a) (a_version a))
       (run_writes (map (fun ku => path_write JSON_parse put_ok delete_ok d a ku.2) updates) (stores d))
       (events d ++ (map (fun n => IndexUpdated n (a_url a) (a_version a)) (emitted_tables results)
                     ++ [IndexesUpdated (a_url a) (a_version a)])).
Proof.
  intros Ho Hi Hlt. unfold indexArchive. rewrite Ho, Hi. simpl.
  rewrite bool_decide_false by lia.
  unfold applyUpdates. rewrite apply_all_split.
  unfold add_events, set_indexMeta, set_stores.
  cbn [isOpen idx tables tablePathPatterns tablesToRebuild indexMeta stores events].
  rewrite Ho, Hi. reflexivity.
Qed.

(** C8: applying the same collapsed update set a second time, on the store the
    first application produced, returns the same per-path results and leaves
    every stored record (key, content and provenance fields) as the first
    application left it. *)
Theorem applyUpdates_idempotent (d : db) (a : archive) (updates : list (string * update)) :
  let '(results1, d1) := applyUpdates JSON_parse put_ok delete_ok d a updates in
  let '(results2, d2) := applyUpdates JSON_parse put_ok delete_ok d1 a updates in
  results2 = results1 /\ stores d2 = stores d1.
Proof.
  unfold applyUpdates. rewrite apply_all_split. cbn [stores set_stores].
  rewrite apply_all_split. cbn [stores set_stores]. split.
  - reflexivity.
  - apply run_writes_idempotent.
Qed.

(** C4: during an indexing pass, a path of the collapsed window whose
    processing throws (the read, parse, validation or [IDB.put] of a write,
    or the [IDB.delete] of a deletion) yields [false] and writes nothing: its
    record key keeps what it held before the pass.  Every other path is
    still applied (the record of a write is stored, the record of a deletion
    is removed), each path's result is the one it has on its own, and the
    archive's indexed version still advances to the remote version. *)
Theorem indexArchive_per_record_error (d : db) (a : archive) (u : update) :
  isOpen d = true -> idx d = true -> stored_version d a < a_version a ->
  let updates := scanArchiveHistoryForUpdates d a (stored_version d a + 1) (a_version a + 1) in
  let d' := indexArchive JSON_parse put_ok delete_ok d a in
  (u_path u, u) ∈ updates ->
  (u_type u ≠ "del" /\ (exists e, readAndIndexFile_try JSON_parse put_ok d a (u_path u) = Err e)) \/
  (u_type u = "del" /\ (exists e, unindexFile_try delete_ok d a (u_path u) = Err e)) ->
  apply_update JSON_parse put_ok delete_ok d a u (stores d) = (TFalse, stores d) /\
  (forall t, stores d' !! (t, a_url a +:+ u_path u) = stores d !! (t, a_url a +:+ u_path u)) /\
  (forall q u' name r, (q, u') ∈ updates -> u_type u' ≠ "del" ->
     readAndIndexFile_try JSON_parse put_ok d a q = Ok (Some (name, r)) ->
     stores d' !! (name, a_url a +:+ q) = Some r) /\
  (forall q u' t, (q, u') ∈ updates -> u_type u' = "del" ->
     unindexFile_try delete_ok d a q = Ok (Some t) ->
     stores d' !! (t_name t, a_url a +:+ q) = None) /\
  fst (applyUpdates JSON_parse put_ok delete_ok d a updates)
    = map (fun ku => fst (apply_update JSON_parse put_ok delete_ok d a ku.2 ∅)) updates /\
  stored_version d' a = a_version a.
Proof.
  intros Ho Hi Hlt updates d' Hin Hfail.
  destruct (scan_wf d a (stored_version d a + 1) (a_version a + 1)) as [Hnd Hwf].
  fold updates in Hnd, Hwf.
  assert (Hd' : d' = indexArchive JSON_parse put_ok delete_ok d a) by done.
  rewrite indexArchive_run in Hd' by done. fold updates in Hd'.
  assert (Hw : path_write JSON_parse put_ok delete_ok d a u = None).
  { unfold path_write.
    destruct Hfail as [(Hdel & e & He)|(Hdel & e & He)].
    - rewrite bool_decide_false by done. by rewrite He.
    - rewrite bool_decide_true by done. by rewrite He. }
  split; [|split; [|split; [|split; [|split]]]].
  - rewrite apply_update_split, Hw. f_equal.
    unfold path_result, apply_update, readAndIndexFile, unindexFile.
    destruct Hfail as [(Hdel & e & He)|(Hdel & e & He)].
    + rewrite bool_decide_false by done. by rewrite He.
    + rewrite bool_decide_true by done. by rewrite He.
  - intros t. rewrite Hd'. cbn [stores].
    rewrite (run_writes_own_key JSON_parse put_ok delete_ok d a updates (stores d) (u_path u) u t)
      by done.
    by rewrite Hw.
  - intros q u' name r Hin' Hdel' Hok. rewrite Hd'. cbn [stores].
    rewrite (run_writes_own_key JSON_parse put_ok delete_ok d a updates (stores d) q u' name) by done.
    assert (Hq : u_path u' = q) by (rewrite Forall_forall in Hwf; exact (Hwf _ Hin')).
    simpl in Hq. unfold path_write. rewrite bool_decide_false by done. rewrite Hq, Hok.
    simpl. by rewrite lookup_insert_eq.
  - intros q u' t Hin' Hdel' Hok. rewrite Hd'. cbn [stores].
    rewrite (run_writes_own_key JSON_parse put_ok delete_ok d a updates (stores d) q u' (t_name t))
      by done.
    assert (Hq : u_path u' = q) by (rewrite Forall_forall in Hwf; exact (Hwf _ Hin')).
    simpl in Hq. unfold path_write. rewrite bool_decide_true by done. rewrite Hq, Hok.
    simpl. by rewrite lookup_delete_eq.
  - unfold applyUpdates. rewrite apply_all_split. done.
  - rewrite Hd'. unfold stored_version, IDB_update_meta. cbn [indexMeta].
    by rewrite lookup_insert_eq.
Qed.

End IndexerProofs.

Section PassProofs.
Context (JSON_parse : string -> option record) (put_ok : string -> record -> bool)
  (delete_ok : string -> string -> bool).

(** C1 (amended): on a closed or corrupted db, or when the stored indexed
    version is at least the remote version, [indexArchive] changes nothing.
    Otherwise it applies the collapsed change set of exactly the window
    [stored + 1, remote + 1), persists the archive's IndexMeta with version =
    remote (other IndexMeta records untouched), and emits one "index-updated"
    per distinct non-empty table name returned, then one "indexes-updated"
    with the new version. *)
Theorem indexArchive_spec (d : db) (a : archive) :
  (isOpen d = false \/ idx d = false \/ a_version a <= stored_version d a ->
     indexArchive JSON_parse put_ok delete_ok d a = d) /\
  (isOpen d = true -> idx d = true -> stored_version d a < a_version a ->
     let updates := scanArchiveHistoryForUpdates d a (stored_version d a + 1) (a_version a + 1) in
     let results := fst (applyUpdates JSON_parse put_ok delete_ok d a updates) in
     let d' := indexArchive JSON_parse put_ok delete_ok d a in
     stores d' = stores (snd (applyUpdates JSON_parse put_ok delete_ok d a updates)) /\
     ver d' (a_url a) = Some (a_version a) /\
     (forall url, url ≠ a_url a -> indexMeta d' !! url = indexMeta d !! url) /\
     events d' = events d ++ (map (fun n => IndexUpdated n (a_url a) (a_version a)) (emitted_tables results)
                              ++ [IndexesUpdated (a_url a) (a_version a)]) /\
     NoDup (emitted_tables results) /\
     (forall n, n ∈ emitted_tables results <-> TName n ∈ results /\ n ≠ "")).
Proof.
  split; [apply indexArchive_skip|].
  intros Ho Hi Hlt updates results d'.
  assert (Hres : results = map (fun ku => path_result JSON_parse put_ok delete_ok d a ku.2) updates).
  { unfold results, applyUpdates. rewrite apply_all_split. done. }
  assert (Hd' : d' = indexArchive JSON_parse put_ok delete_ok d a) by done.
  rewrite indexArchive_run in Hd' by done. fold updates in Hd'.
  rewrite <- Hres in Hd'.
  destruct (emitted_tables_spec results) as [Hnd Hmem].
  rewrite Hd'. cbn [stores indexMeta events].
  split; [|split; [|split; [|split; [|split]]]]; try done.
  - unfold applyUpdates. rewrite apply_all_split. done.
  - unfold ver. cbn [indexMeta]. unfold IDB_update_meta. by rewrite lookup_insert_eq.
  - intros url Hne. unfold IDB_update_meta. by rewrite lookup_insert_ne.
Qed.

Lemma IDB_clear_lookup (s : store) (n t k : string) :
  IDB_clear s n !! (t, k) = if bool_decide (t = n) then None else s !! (t, k).
Proof.
  unfold IDB_clear. rewrite map_lookup_filter.
  destruct (s !! (t, k)) as [r|]; simpl; case_bool_decide; simpl; [| |done|done].
  - case_guard; [done|]. simpl. done.
  - case_guard; [|done]. simpl. done.
Qed.

Lemma clear_all_lookup (ts : list table) (s : store) (t k : string) :
  fold_left (fun s tb => IDB_clear s (t_name tb)) ts s !! (t, k)
  = if bool_decide (t ∈ map t_name ts) then None else s !! (t, k).
Proof.
  revert s. induction ts as [|tb ts IH]; intros s; simpl.
  - done.
  - rewrite IH, IDB_clear_lookup.
    repeat case_bool_decide; try done; set_solver.
Qed.

(** C7: with no table flagged for rebuild, [resetOutdatedIndexes] returns
    false and changes nothing.  Otherwise it returns true, every table of
    [db.tables] is emptied (not only the flagged ones), every IndexMeta record
    is kept with its version reset to 0, and nothing else changes. *)
Theorem resetOutdatedIndexes_spec (d : db) :
  (tablesToRebuild d = [] -> resetOutdatedIndexes d = (false, d)) /\
  (tablesToRebuild d ≠ [] ->
     let '(b, d') := resetOutdatedIndexes d in
     b = true /\
     (forall t k, t ∈ map t_name (tables d) -> stores d' !! (t, k) = None) /\
     (forall t k, t ∉ map t_name (tables d) -> stores d' !! (t, k) = stores d !! (t, k)) /\
     (forall url, indexMeta d' !! url
                  = (fun m => mkMeta (m_url m) 0 (m_isWritable m)) <$> indexMeta d !! url) /\
     events d' = events d /\ tables d' = tables d /\ tablesToRebuild d' = tablesToRebuild d).
Proof.
  unfold resetOutdatedIndexes. split.
  - intros ->. done.
  - intros Hne. destruct (tablesToRebuild d) as [|x xs] eqn:Ht; [done|].
    cbn [set_indexMeta set_stores stores indexMeta events tables tablesToRebuild].
    split; [done|]. split; [|split; [|split; [|split; [|split]]]]; try done.
    + intros t k Hin. rewrite clear_all_lookup. by rewrite bool_decide_true.
    + intros t k Hin. rewrite clear_all_lookup. by rewrite bool_decide_false.
    + intros url. by rewrite lookup_fmap.
Qed.

End PassProofs.

(** ** Persisted indexed version *)

Section VersionProofs.
Context (JSON_parse : string -> option record) (put_ok : string -> record -> bool)
  (delete_ok : string -> string -> bool).

Lemma ver_stored_version (d : db) (a : archive) (v : Z) :
  ver d (a_url a) = Some v -> stored_version d a = v.
Proof.
  unfold ver, stored_version. destruct (indexMeta d !! a_url a); simpl; congruence.
Qed.

Lemma never_decreases_refl (d : db) : never_decreases d d.
Proof. intros url v v' H1 H2. rewrite H1 in H2. injection H2 as ->. lia. Qed.

(** C2 (amended): an indexing pass never lowers a persisted version; after a
    pass on an open, uncorrupted db whose stored version was at most the
    remote version read at its start, the stored version equals that remote
    version; [resetOutdatedIndexes] either changes no version at all or resets
    every one of them to 0; and [addArchive] first persists a fresh IndexMeta at version 0
    for its archive (whatever version was stored before), leaving the other
    archives' versions alone. *)
Theorem indexed_version_monotone (d : db) (a : archive) :
  never_decreases d (indexArchive JSON_parse put_ok delete_ok d a) /\
  (isOpen d = true -> idx d = true -> stored_version d a <= a_version a ->
     stored_version (indexArchive JSON_parse put_ok delete_ok d a) a = a_version a) /\
  ((forall url, ver (snd (resetOutdatedIndexes d)) url = ver d url) \/
   (forall url, ver (snd (resetOutdatedIndexes d)) url = (fun _ => 0) <$> ver d url)) /\
  ver (addArchive_persist d a) (a_url a) = Some 0 /\
  (forall url, url ≠ a_url a -> ver (addArchive_persist d a) url = ver d url).
Proof.
  split; [|split; [|split; [|split]]].
  - destruct (isOpen d) eqn:Ho;
      [|rewrite indexArchive_skip by auto; apply never_decreases_refl].
    destruct (idx d) eqn:Hi;
      [|rewrite indexArchive_skip by auto; apply never_decreases_refl].
    destruct (decide (stored_version d a < a_version a)) as [Hlt|Hge];
      [|rewrite indexArchive_skip by (right; right; lia); apply never_decreases_refl].
    rewrite indexArchive_run by done.
    intros url v v' Hv Hv'. unfold ver in Hv'. cbn [indexMeta] in Hv'.
    unfold IDB_update_meta in Hv'.
    destruct (decide (url = a_url a)) as [->|Hne].
    + rewrite lookup_insert_eq in Hv'. simpl in Hv'. injection Hv' as <-.
      apply ver_stored_version in Hv. lia.
    + rewrite lookup_insert_ne in Hv' by congruence. unfold ver in Hv.
      rewrite Hv in Hv'. injection Hv' as ->. lia.
  - intros Ho Hi Hle.
    destruct (decide (stored_version d a < a_version a)) as [Hlt|Hge].
    + rewrite indexArchive_run by done. unfold stored_version. cbn [indexMeta].
      unfold IDB_update_meta. by rewrite lookup_insert_eq.
    + rewrite indexArchive_skip by (right; right; lia). lia.
  - unfold resetOutdatedIndexes.
    destruct (tablesToRebuild d); [by left|right]. intros url.
    unfold ver. cbn [snd set_indexMeta indexMeta]. rewrite lookup_fmap.
    destruct (indexMeta d !! url); done.
  - unfold ver, addArchive_persist. cbn [set_indexMeta indexMeta].
    by rewrite lookup_insert_eq.
  - intros url Hne. unfold ver, addArchive_persist. cbn [set_indexMeta indexMeta].
    by rewrite lookup_insert_ne.
Qed.

End VersionProofs.

(** C2 counterexample: a persisted version goes down through an operation
    other than [resetOutdatedIndexes]: [addArchive] on an archive already
    indexed up to version 5 persists version 0 for it. *)
Lemma addArchive_lowers_indexed_version :
  ~ (forall (JSON_parse : string -> option record) (put_ok : string -> record -> bool)
            (delete_ok : string -> string -> bool) (o : meta_op) (d : db),
       o ≠ OpResetOutdatedIndexes ->
       never_decreases d (run_meta_op JSON_parse put_ok delete_ok o d)).
Proof.
  intros H.
  assert (Hle : 5 <= 0).
  { apply (H sample_parse sample_put_ok sample_delete_ok (OpAddArchivePersist sample_archive)
             (sample_db true 5 []) ltac:(discriminate) "dat://sample");
      vm_compute; reflexivity. }
  lia.
Qed.

(** C1 counterexample: on a closed db whose stored version (0) is below the
    remote version (5), [indexArchive] persists nothing and emits nothing. *)
Lemma indexArchive_closed_db_no_persist :
  stored_version (sample_db false 0 []) sample_archive < a_version sample_archive /\
  ver (indexArchive sample_parse sample_put_ok sample_delete_ok (sample_db false 0 []) sample_archive)
      (a_url sample_archive) = Some 0 /\
  events (indexArchive sample_parse sample_put_ok sample_delete_ok (sample_db false 0 []) sample_archive) = [].
Proof. vm_compute. split; [reflexivity|split; reflexivity]. Qed.

(** ** Schema differ *)

Section DiffProofs.
Variable diffArrays : jsv -> jsv -> jsv.
Variable same_ref : jsv -> jsv -> bool.

Lemma is_null_true (v : jsv) : is_null v = true <-> v = JNull.
Proof. destruct v; simpl; split; congruence. Qed.



Lemma diff_step_Err (oldSchema newSchema : jsv) (names : list string) (e : exn) :
  fold_left (diff_step diffArrays same_ref oldSchema newSchema) names (Err e) = Err e.
Proof. induction names as [|t names IH]; simpl; done. Qed.





End DiffProofs.





(** ** Schema validation *)

(** C9: [validateAndSanitize] tests the [index] field of the schema object
    instead of the table's: a table whose [index] is a number (neither a
    string nor an array of strings) is accepted, and its [index] is wrapped
    into [[5]]; the same number at the top level of the schema raises
    SchemaError. *)
Theorem validateAndSanitize_checks_schema_index :
  validateAndSanitize schema_bad_table_index =
    Ok (JObj [("version", JNum 1); ("posts", JObj [("index", JArr [JNum 5])])]) /\
  validateAndSanitize schema_bad_top_index = Err SchemaError.
Proof. vm_compute. split; reflexivity. Qed.

(** ** Archive watching *)

(** C10: two [watchArchive] calls on one handle that overlap at
    [await archive._loadPromise] both pass the [archive.fileEvents] test and
    both subscribe: the handle ends with two open file-activity streams, and
    [unwatchArchive] closes only the last one, leaving stream 0 open. *)
Theorem watchArchive_overlapping_calls_subscribe_twice :
  rtc (watch_step true) watch_init (mkWatch (Some 1%nat) [1%nat; 0%nat] 2 0) /\
  length (open_streams (mkWatch (Some 1%nat) [1%nat; 0%nat] 2 0)) = 2%nat /\
  unwatchArchive (mkWatch (Some 1%nat) [1%nat; 0%nat] 2 0) = mkWatch None [0%nat] 2 0.
Proof.
  split; [|split; reflexivity].
  eapply rtc_l; [apply step_watch|].
  eapply rtc_l; [apply step_watch|].
  eapply rtc_l; [apply step_resume; simpl; lia|].
  eapply rtc_l; [apply step_resume; simpl; lia|].
  simpl. apply rtc_refl.
Qed.

(** ** Witnesses of the indexer properties *)

(** C1 witness: indexing the sample archive (version 5) on an open db that
    has it at version 0 persists version 5; with version 5 stored, nothing
    changes. *)
Lemma indexArchive_spec_witness :
  stored_version (sample_db true 0 []) sample_archive < a_version sample_archive /\
  ver (indexArchive sample_parse sample_put_ok sample_delete_ok (sample_db true 0 []) sample_archive)
      "dat://sample" = Some 5 /\
  indexArchive sample_parse sample_put_ok sample_delete_ok (sample_db true 5 []) sample_archive = sample_db true 5 [].
Proof.
  split; [vm_compute; reflexivity|].
  split.
  - destruct (indexArchive_spec sample_parse sample_put_ok sample_delete_ok (sample_db true 0 []) sample_archive)
      as [_ H].
    destruct (H eq_refl eq_refl ltac:(vm_compute; reflexivity)) as (_ & Hv & _).
    exact Hv.
  - destruct (indexArchive_spec sample_parse sample_put_ok sample_delete_ok (sample_db true 5 []) sample_archive)
      as [H _].
    apply H. right. right. vm_compute. discriminate.
Defined.

(** C2 witness: after indexing the sample archive from version 0, the stored
    version is the remote version 5. *)
Lemma indexed_version_monotone_witness :
  stored_version (indexArchive sample_parse sample_put_ok sample_delete_ok (sample_db true 0 []) sample_archive)
                 sample_archive = 5.
Proof.
  destruct (indexed_version_monotone sample_parse sample_put_ok sample_delete_ok (sample_db true 0 []) sample_archive)
    as (_ & H & _).
  apply H; [reflexivity|reflexivity|vm_compute; discriminate].
Defined.

(** C4 witness: at version 5, /posts/b.json fails to parse; it is not
    indexed, while the sample archive's version still advances to 5.  At
    version 4 the last change of /posts/a.json is its deletion, and the
    [IDB.delete] throws: the record of /posts/a.json stays in the store, and
    the version still advances to 4. *)
Lemma indexArchive_per_record_error_witness :
  apply_update sample_parse sample_put_ok sample_delete_ok (sample_db true 0 []) sample_archive
    (mkUpdate "/posts/b.json" "put" 3) (stores (sample_db true 0 []))
    = (TFalse, stores (sample_db true 0 [])) /\
  stored_version (indexArchive sample_parse sample_put_ok sample_delete_ok (sample_db true 0 [])
                                sample_archive) sample_archive = 5 /\
  stores (indexArchive sample_parse sample_put_ok sample_delete_fails sample_db_with_a
                       sample_archive_v4) !! ("posts", "dat://sample/posts/a.json")
    = Some {[ "content" := "a" ]} /\
  stored_version (indexArchive sample_parse sample_put_ok sample_delete_fails sample_db_with_a
                                sample_archive_v4) sample_archive_v4 = 4.
Proof.
  assert (Hmem : ("/posts/b.json", mkUpdate "/posts/b.json" "put" 3) ∈
            scanArchiveHistoryForUpdates (sample_db true 0 []) sample_archive
              (stored_version (sample_db true 0 []) sample_archive + 1)
              (a_version sample_archive + 1)).
  { replace (scanArchiveHistoryForUpdates _ _ _ _)
      with [("/posts/a.json", mkUpdate "/posts/a.json" "put" 5);
            ("/posts/b.json", mkUpdate "/posts/b.json" "put" 3)]
      by (vm_compute; reflexivity).
    apply elem_of_cons. right. apply elem_of_cons. left. reflexivity. }
  assert (Herr : exists e, readAndIndexFile_try sample_parse sample_put_ok (sample_db true 0 [])
                             sample_archive (u_path (mkUpdate "/posts/b.json" "put" 3)) = Err e).
  { exists SyntaxError. vm_compute. reflexivity. }
  destruct (indexArchive_per_record_error sample_parse sample_put_ok sample_delete_ok
              (sample_db true 0 []) sample_archive (mkUpdate "/posts/b.json" "put" 3) eq_refl eq_refl
              ltac:(vm_compute; reflexivity) Hmem ltac:(left; split; [discriminate|exact Herr]))
    as (H1 & _ & _ & _ & _ & H6).
  assert (Hmem' : ("/posts/a.json", mkUpdate "/posts/a.json" "del" 4) ∈
            scanArchiveHistoryForUpdates sample_db_with_a sample_archive_v4
              (stored_version sample_db_with_a sample_archive_v4 + 1)
              (a_version sample_archive_v4 + 1)).
  { replace (scanArchiveHistoryForUpdates _ _ _ _)
      with [("/posts/a.json", mkUpdate "/posts/a.json" "del" 4);
            ("/posts/b.json", mkUpdate "/posts/b.json" "put" 3)]
      by (vm_compute; reflexivity).
    apply elem_of_cons. left. reflexivity. }
  assert (Herr' : exists e, unindexFile_try sample_delete_fails sample_db_with_a sample_archive_v4
                              (u_path (mkUpdate "/posts/a.json" "del" 4)) = Err e).
  { exists StoreError. vm_compute. reflexivity. }
  destruct (indexArchive_per_record_error sample_parse sample_put_ok sample_delete_fails
              sample_db_with_a sample_archive_v4 (mkUpdate "/posts/a.json" "del" 4) eq_refl eq_refl
              ltac:(vm_compute; reflexivity) Hmem' ltac:(right; split; [reflexivity|exact Herr']))
    as (_ & K2 & _ & _ & _ & K6).
  split; [exact H1|split; [exact H6|split; [|exact K6]]].
  exact (K2 "posts").
Defined.

(** C7 witness: with nothing flagged, [resetOutdatedIndexes] returns false
    and changes nothing; with [posts] flagged, it returns true and empties
    [posts]. *)
Lemma resetOutdatedIndexes_spec_witness :
  resetOutdatedIndexes (sample_db true 3 []) = (false, sample_db true 3 []) /\
  fst (resetOutdatedIndexes (sample_db true 3 ["posts"])) = true /\
  stores (snd (resetOutdatedIndexes (sample_db true 3 ["posts"])))
    !! ("posts", "dat://sample/posts/old.json") = None.
Proof.
  destruct (resetOutdatedIndexes_spec sample_parse sample_put_ok sample_delete_ok (sample_db true 3 [])) as [H0 _].
  destruct (resetOutdatedIndexes_spec sample_parse sample_put_ok sample_delete_ok (sample_db true 3 ["posts"])) as [_ H].
  specialize (H ltac:(discriminate)).
  split; [apply H0; reflexivity|].
  destruct (resetOutdatedIndexes (sample_db true 3 ["posts"])) as [b d'].
  destruct H as (Hb & Hcl & _). simpl. split; [exact Hb|].
  apply Hcl. simpl. left.
Defined.

(* ================================================================== *)
(** ** Table bookkeeping *)

Lemma elem_of_set_add (s : list string) (x y : string) : x ∈ set_add s y <-> x = y \/ x ∈ s.
Proof. unfold set_add. case_bool_decide; rewrite ?elem_of_app, ?list_elem_of_singleton; naive_solver. Qed.

Lemma NoDup_set_add (s : list string) (y : string) : NoDup s -> NoDup (set_add s y).
Proof.
  intros Hs. unfold set_add. case_bool_decide as Hy; [done|].
  apply NoDup_app. split; [done|]. split; [|apply NoDup_singleton].
  intros z Hz Hz'. apply list_elem_of_singleton in Hz'. subst. done.
Qed.

Lemma elem_of_set_delete (s : list string) (x y : string) : x ∈ set_delete s y <-> x ∈ s /\ x ≠ y.
Proof. unfold set_delete. rewrite list_elem_of_filter. naive_solver. Qed.

Lemma NoDup_set_delete (s : list string) (y : string) : NoDup s -> NoDup (set_delete s y).
Proof. intros Hs. unfold set_delete. by apply NoDup_filter. Qed.

Lemma get_prop_obj (f : list (string * jsv)) (k : string) :
  get_prop (JObj f) k = Ok (match obj_get f k with Some x => x | None => proto_get k end).
Proof. reflexivity. Qed.

Lemma active_table_fold (f : list (string * jsv)) (ns s : list string) :
  NoDup s ->
  exists s', fold_left (active_table_step (JObj f)) ns (Ok s) = Ok s' /\ NoDup s' /\
    forall t, t ∈ s' <->
      (t ∈ ns /\ match obj_get f t with Some x => x | None => proto_get t end ≠ JNull) \/ ((t ∉ ns) /\ t ∈ s).
Proof.
  revert s. induction ns as [|t0 ns IH]; intros s Hs; cbn [fold_left].
  - exists s. split; [done|]. split; [done|]. intros t. set_solver.
  - unfold active_table_step at 2. rewrite get_prop_obj. simpl.
    set (v := match obj_get f t0 with Some x => x | None => proto_get t0 end).
    set (s1 := if is_null v then set_delete s t0 else set_add s t0).
    assert (Hs1 : NoDup s1).
    { unfold s1. destruct (is_null v); [by apply NoDup_set_delete|by apply NoDup_set_add]. }
    assert (Hm1 : forall t, t ∈ s1 <-> (t = t0 /\ v ≠ JNull) \/ (t ≠ t0 /\ t ∈ s)).
    { intros t. unfold s1. destruct (is_null v) eqn:Hn.
      - apply is_null_true in Hn. rewrite elem_of_set_delete. naive_solver.
      - assert (v ≠ JNull) by (intros Hv; rewrite Hv in Hn; discriminate).
        rewrite elem_of_set_add.
        destruct (decide (t = t0)); naive_solver. }
    destruct (IH s1 Hs1) as (s' & Hf & Hnd & Hm). fold v. fold s1.
    exists s'. split; [done|]. split; [done|]. intros t. rewrite Hm, Hm1, elem_of_cons.
    destruct (decide (t ∈ ns)); destruct (decide (t = t0)) as [->|Ht]; naive_solver.
Qed.

Lemma table_decl_obj (f : list (string * jsv)) (t : string) :
  table_decl (JObj f) t =
  if bool_decide (t ∈ getTableNames (JObj f)) then Some (match obj_get f t with Some x => x | None => proto_get t end) else None.
Proof. unfold table_decl. case_bool_decide; done. Qed.

Lemma active_schema_fold (l : list jsv) (s : list string) :
  Forall is_plain_object l -> NoDup s ->
  exists s', fold_left active_schema_step l (Ok s) = Ok s' /\ NoDup s' /\
    forall t, t ∈ s' <-> match last_decl l t with Some v => v ≠ JNull | None => t ∈ s end.
Proof.
  revert s. induction l as [|x l IH]; intros s Hl Hs; cbn [fold_left].
  - exists s. done.
  - inversion Hl as [|? ? Hx Hl']; subst.
    destruct x as [| | | | | |f|]; try contradiction.
    unfold active_schema_step at 2. simpl.
    destruct (active_table_fold f (getTableNames (JObj f)) s Hs) as (s1 & Hf1 & Hnd1 & Hm1).
    rewrite Hf1.
    destruct (IH s1 Hl' Hnd1) as (s' & Hf & Hnd & Hm).
    exists s'. split; [done|]. split; [done|]. intros t. rewrite Hm.
    unfold last_decl. rewrite omap_cons_eq, table_decl_obj.
    destruct (last (omap (fun schema => table_decl schema t) l)) as [v|] eqn:Hlast.
    + case_bool_decide; rewrite ?last_cons, ?Hlast; done.
    + rewrite Hm1. case_bool_decide as Hin; rewrite ?last_cons, ?Hlast; [|naive_solver].
      simpl. naive_solver.
Qed.

Lemma getActiveTableNames_schemas (dbo dbo' : dbobj) :
  obj_get dbo "schemas" = obj_get dbo' "schemas" ->
  getActiveTableNames dbo = getActiveTableNames dbo'.
Proof. intros H. unfold getActiveTableNames. simpl. rewrite H. done. Qed.

(** [getActiveTableNames(db)] over schemas that are plain objects lists each
    table once, and lists exactly the tables whose last declaring schema, in
    registration order, does not map them to [null]: a table dropped by one
    schema and declared again by a later one is active. *)
Theorem getActiveTableNames_spec (dbo : dbobj) (l : list jsv) :
  obj_get dbo "schemas" = Some (JArr l) -> Forall is_plain_object l ->
  exists names, getActiveTableNames dbo = Ok names /\ NoDup names /\
    forall t, t ∈ names <-> exists v, last_decl l t = Some v /\ v ≠ JNull.
Proof.
  intros Hs Hl. unfold getActiveTableNames. simpl. rewrite Hs. simpl.
  destruct (active_schema_fold l [] Hl) as (s' & Hf & Hnd & Hm); [constructor|].
  exists s'. split; [done|]. split; [done|]. intros t. rewrite Hm.
  destruct (last_decl l t); [naive_solver|]. split; [intros Ht; by apply elem_of_nil in Ht|].
  intros (v & Hv & _). discriminate.
Qed.

Lemma js_array_get_not_null (l : list jsv) (k : string) :
  Forall is_plain_object l -> js_array_get l k ≠ JNull.
Proof.
  intros Hl. unfold js_array_get. case_bool_decide; [discriminate|].
  destruct (array_index k) as [i|]; [|discriminate].
  destruct (nth_error l i) as [x|] eqn:Hx; simpl; [|discriminate].
  apply nth_error_In in Hx. rewrite Forall_forall in Hl.
  apply list_elem_of_In in Hx. specialize (Hl x Hx). destruct x; try contradiction. discriminate.
Qed.

Lemma addTables_fold (l : list jsv) (ns : list string) (o : dbobj) :
  Forall is_plain_object l ->
  obj_get o "schemas" = Some (JArr l) \/ obj_get o "schemas" = Some (JBool true) ->
  exists o', fold_left addTables_step ns (Ok o) = Ok o' /\
    forall k, obj_get o' k = if bool_decide (k ∈ ns) then Some (JBool true) else obj_get o k.
Proof.
  intros Hl. revert o. induction ns as [|t ns IH]; intros o Ho; cbn [fold_left].
  - exists o. split; [done|]. intros k. rewrite bool_decide_false; [done|]. apply not_elem_of_nil.
  - assert (Hstep : addTables_step (Ok o) t = Ok (obj_set o t (JBool true))).
    { unfold addTables_step. simpl.
      destruct Ho as [Ho|Ho]; rewrite Ho; simpl.
      - destruct (is_null (js_array_get l t)) eqn:Hn; [|done].
        apply is_null_true in Hn. exfalso. by apply (js_array_get_not_null l t).
      - done. }
    rewrite Hstep.
    destruct (IH (obj_set o t (JBool true))) as (o' & Hf & Ho').
    { rewrite obj_get_obj_set. case_bool_decide; [by right|done]. }
    exists o'. split; [done|]. intros k. rewrite Ho', obj_get_obj_set.
    destruct (decide (k ∈ ns)) as [Hk|Hk].
    + rewrite !bool_decide_true; [done|set_solver|done].
    + rewrite (bool_decide_false (k ∈ ns)) by done.
      destruct (decide (t = k)) as [->|Htk].
      * rewrite !bool_decide_true; [done|set_solver|done].
      * rewrite !bool_decide_false; [done|set_solver|done].
Qed.

(** [addTables(db)], with [db.schemas] an array of plain-object schemas,
    sets [db[t] = true] for every active table [t] and leaves every other
    property of [db] as it was. *)
Theorem addTables_marks_active (dbo : dbobj) (l : list jsv) (names : list string) :
  obj_get dbo "schemas" = Some (JArr l) -> Forall is_plain_object l ->
  getActiveTableNames dbo = Ok names ->
  exists dbo', addTables dbo = Ok dbo' /\
    forall k, obj_get dbo' k = if bool_decide (k ∈ names) then Some (JBool true) else obj_get dbo k.
Proof.
  intros Hs Hl Hn. unfold addTables. rewrite Hn. simpl.
  apply (addTables_fold l); [done|by left].
Qed.

Lemma obj_get_obj_delete {A} (o : list (string * A)) (k k' : string) :
  obj_get (obj_delete o k) k' = if bool_decide (k = k') then None else obj_get o k'.
Proof.
  unfold obj_delete. induction o as [|[k0 v0] o IH]; [simpl; by case_bool_decide|].
  rewrite filter_cons. cbn [fst].
  destruct (decide (k0 ≠ k)) as [Hk0|Hk0]; cbn [obj_get]; rewrite IH.
  - repeat case_bool_decide; congruence.
  - apply dec_stable in Hk0. subst k0. repeat case_bool_decide; congruence.
Qed.

Lemma obj_get_delete_all {A} (ns : list string) (o : list (string * A)) (k : string) :
  obj_get (fold_left obj_delete ns o) k = if bool_decide (k ∈ ns) then None else obj_get o k.
Proof.
  revert o. induction ns as [|n ns IH]; intros o; cbn [fold_left].
  - rewrite bool_decide_false; [done|]. apply not_elem_of_nil.
  - rewrite IH, obj_get_obj_delete.
    destruct (decide (k ∈ ns)); [rewrite !bool_decide_true; [done|set_solver|done]|].
    rewrite (bool_decide_false (k ∈ ns)) by done.
    destruct (decide (n = k)) as [->|Hn].
    + rewrite !bool_decide_true; [done|set_solver|done].
    + rewrite !bool_decide_false; [done|set_solver|done].
Qed.

(** [removeTables] undoes [addTables]: when no active table is named
    [schemas], removing the tables after adding them deletes exactly the
    properties named by active tables (whatever [db] held there before) and
    leaves every other property as it was. *)
Theorem removeTables_after_addTables (dbo dbo' : dbobj) (l : list jsv) (names : list string) :
  obj_get dbo "schemas" = Some (JArr l) -> Forall is_plain_object l ->
  getActiveTableNames dbo = Ok names -> "schemas" ∉ names ->
  addTables dbo = Ok dbo' ->
  exists dbo'', removeTables dbo' = Ok dbo'' /\
    forall k, obj_get dbo'' k = if bool_decide (k ∈ names) then None else obj_get dbo k.
Proof.
  intros Hs Hl Hn Hsch Hadd.
  destruct (addTables_marks_active dbo l names Hs Hl Hn) as (d1 & Hd1 & Hget).
  rewrite Hadd in Hd1. injection Hd1 as <-.
  assert (Hn' : getActiveTableNames dbo' = Ok names).
  { rewrite <- Hn. apply getActiveTableNames_schemas. rewrite Hget.
    rewrite bool_decide_false by done. done. }
  unfold removeTables. rewrite Hn'. simpl. eexists. split; [reflexivity|].
  intros k. rewrite obj_get_delete_all, Hget. case_bool_decide; done.
Qed.

(** ** Index creation *)

Lemma js_split_cons (c : Ascii.ascii) (s : string) : exists p ps, js_split c s = p :: ps.
Proof.
  induction s as [|c0 s' IH]; simpl; [by eexists _, _|].
  destruct IH as (p & ps & ->). case_bool_decide; by eexists _, _.
Qed.

Lemma js_join_split (c : Ascii.ascii) (s : string) : js_join (String c EmptyString) (js_split c s) = s.
Proof.
  induction s as [|c0 s' IH]; [done|]. simpl.
  destruct (js_split_cons c s') as (p & ps & Hs). rewrite Hs in IH |- *.
  case_bool_decide as Hc.
  - subst c0. rewrite <- IH. reflexivity.
  - rewrite <- IH. destruct ps; reflexivity.
Qed.

Lemma js_split_parts (c : Ascii.ascii) (s : string) :
  Forall (fun p => str_has c p = false) (js_split c s).
Proof.
  induction s as [|c0 s' IH]; simpl; [by repeat constructor|].
  destruct (js_split_cons c s') as (p & ps & Hs). rewrite Hs in IH |- *.
  inversion IH as [|? ? Hp Hps]; subst.
  case_bool_decide as Hc; constructor; try done.
  simpl. rewrite Hp, bool_decide_false by done. done.
Qed.

Lemma js_split_length (c : Ascii.ascii) (s : string) :
  (1 < length (js_split c s))%nat <-> str_has c s = true.
Proof.
  induction s as [|c0 s' IH]; simpl; [split; [lia|discriminate]|].
  destruct (js_split_cons c s') as (p & ps & Hs). rewrite Hs in IH |- *.
  case_bool_decide as Hc; simpl.
  - split; [done|]. intros _. lia.
  - rewrite <- IH. simpl. done.
Qed.

Lemma js_split_single (c : Ascii.ascii) (s : string) :
  str_has c s = false -> js_split c s = [s].
Proof.
  intros Hs. pose proof (js_join_split c s) as Hj.
  destruct (js_split_cons c s) as (p & ps & Hp).
  destruct ps as [|q qs].
  - rewrite Hp in Hj |- *. simpl in Hj. by rewrite Hj.
  - exfalso. assert (H2 : (1 < length (js_split c s))%nat) by (rewrite Hp; simpl; lia).
    apply js_split_length in H2. congruence.
Qed.

(** [addIndex(tableStore, index)] on a string index makes exactly one
    [createIndex(index, keyPath, {multiEntry})] call.  Without '+' in the
    index, the key path is the index itself and multiEntry is false; with a
    '+', the key path is the array of its '+'-separated parts (none contains
    '+', and joined with '+' they give back the index) and multiEntry is
    true.  An index that is not a string makes [index.split] throw a
    [TypeError] before any call. *)
Theorem addIndex_spec (calls : list store_call) (i : string) :
  (exists keyPath, addIndex calls (JStr i) = Ok (calls ++ [CreateIndex i keyPath (str_has "+"%char i)]) /\
     (str_has "+"%char i = false -> keyPath = JStr i) /\
     (str_has "+"%char i = true -> exists parts, keyPath = JArr (map JStr parts) /\
        js_join "+" parts = i /\ Forall (fun p => str_has "+"%char p = false) parts)) /\
  (forall index, is_string index = false -> addIndex calls index = Err TypeError).
Proof.
  split; [|intros index Hi; destruct index; done].
  unfold addIndex. destruct (str_has "+"%char i) eqn:Hh.
  - rewrite bool_decide_true by (by apply js_split_length).
    eexists. split; [reflexivity|]. split; [discriminate|].
    intros _. exists (js_split "+"%char i). split; [done|]. split.
    + apply js_join_split.
    + apply js_split_parts.
  - rewrite js_split_single by done. simpl.
    eexists. split; [reflexivity|]. split; [done|discriminate].
Qed.

(** ** Schema validation *)

Lemma obj_get_elem {A} (o : list (string * A)) (k : string) (v : A) :
  obj_get o k = Some v -> (k, v) ∈ o.
Proof.
  induction o as [|[k0 v0] o IH]; simpl; [done|].
  case_bool_decide as H; intros Hg; apply elem_of_cons.
  - injection Hg as <-. subst. by left.
  - right. by apply IH.
Qed.

Lemma obj_get_NoDup {A} (o : list (string * A)) (k : string) (v : A) :
  NoDup (map fst o) -> (k, v) ∈ o -> obj_get o k = Some v.
Proof.
  induction o as [|[k0 v0] o IH]; simpl; intros Hnd Hin; [set_solver|].
  apply NoDup_cons in Hnd as [Hk0 Hnd].
  apply elem_of_cons in Hin as [Heq|Hin].
  - injection Heq as -> ->. by rewrite bool_decide_true.
  - rewrite bool_decide_false; [by apply IH|].
    intros ->. apply Hk0. apply (list_elem_of_fmap_2 fst) in Hin. exact Hin.
Qed.

Lemma obj_get_sanitize_tables (P : list string) (f : list (string * jsv)) (k : string) :
  obj_get (sanitize_tables P f) k =
  if bool_decide (k ∈ P) then sanitize_table <$> obj_get f k else obj_get f k.
Proof.
  unfold sanitize_tables. induction f as [|[k0 v0] f IH]; simpl.
  - by case_bool_decide.
  - destruct (decide (k0 ∈ P)) as [H0|H0];
      [rewrite (bool_decide_true (k0 ∈ P)) by done|rewrite (bool_decide_false (k0 ∈ P)) by done];
      cbn [obj_get fst snd]; rewrite IH;
      destruct (decide (k0 = k)) as [->|Hk];
      try (rewrite (bool_decide_true (k = k)) by done);
      try (rewrite (bool_decide_false (k0 = k)) by done);
      repeat case_bool_decide; try done; naive_solver.
Qed.

Lemma sanitize_tables_nil (f : list (string * jsv)) : sanitize_tables [] f = f.
Proof.
  unfold sanitize_tables. induction f as [|[k v] f IH]; [done|]. cbn [map].
  rewrite IH. rewrite bool_decide_false by set_solver. done.
Qed.

Lemma sanitize_tables_ext (P Q : list string) (f : list (string * jsv)) :
  (forall kv, kv ∈ f -> (kv.1 ∈ P <-> kv.1 ∈ Q) \/ sanitize_table kv.2 = kv.2) ->
  sanitize_tables P f = sanitize_tables Q f.
Proof.
  unfold sanitize_tables. induction f as [|[k v] f IH]; intros Hf; simpl; [done|].
  rewrite IH by (intros kv Hkv; apply Hf; set_solver).
  f_equal. destruct (Hf (k, v)) as [Hiff|Hs]; [set_solver| |]; simpl in *.
  - repeat case_bool_decide; naive_solver.
  - rewrite Hs. by repeat case_bool_decide.
Qed.

Lemma obj_set_sanitize_tables (P : list string) (f : list (string * jsv)) (k : string) (v : jsv) :
  NoDup (map fst f) -> obj_get f k = Some v -> k ∉ P ->
  obj_set (sanitize_tables P f) k (sanitize_table v) = sanitize_tables (P ++ [k]) f.
Proof.
  unfold sanitize_tables. induction f as [|[k0 v0] f IH]; simpl; intros Hnd Hg HP; [done|].
  apply NoDup_cons in Hnd as [Hk0 Hnd].
  destruct (decide (k0 = k)) as [->|Hk].
  - rewrite bool_decide_true in Hg by done. injection Hg as ->.
    rewrite (bool_decide_false (k ∈ P)) by done. simpl.
    rewrite bool_decide_true by done.
    rewrite (bool_decide_true (k ∈ P ++ [k])) by set_solver.
    f_equal. apply map_ext_in. intros [k1 v1] Hin. simpl.
    assert (k1 ≠ k) by (intros ->; apply Hk0; apply (list_elem_of_fmap_2 fst f (k, v1)); apply list_elem_of_In; exact Hin).
    repeat case_bool_decide; set_solver.
  - rewrite bool_decide_false in Hg by done.
    assert (Hkk : k0 ∈ P <-> k0 ∈ P ++ [k]) by set_solver.
    case_bool_decide as H1; simpl; rewrite bool_decide_false by done;
      rewrite IH by done; f_equal; case_bool_decide; naive_solver.
Qed.

Lemma validate_fold_Err (l : list string) (e : exn) :
  fold_left
    (fun acc tableName =>
       sch ← acc;
       table ← get_prop sch tableName;
       match table with
       | JNull => Ok sch
       | _ =>
           index ← get_prop sch "index";
           _ ← assert (negb (truthy index) || is_string index || isArrayOfStrings index);
           tindex ← get_prop table "index";
           table' ← set_prop table "index" (arrayify tindex);
           set_prop sch tableName table'
       end) l (Err e) = Err e.
Proof. induction l; simpl; auto. Qed.

Lemma validate_fold_ok (f : list (string * jsv)) (P rest : list string) :
  NoDup (map fst f) -> tables_are_objects f -> declares_index_table f = false ->
  NoDup (P ++ rest) -> Forall (fun k => k ∈ map fst f /\ k ≠ "version") rest ->
  fold_left
    (fun acc tableName =>
       sch ← acc;
       table ← get_prop sch tableName;
       match table with
       | JNull => Ok sch
       | _ =>
           index ← get_prop sch "index";
           _ ← assert (negb (truthy index) || is_string index || isArrayOfStrings index);
           tindex ← get_prop table "index";
           table' ← set_prop table "index" (arrayify tindex);
           set_prop sch tableName table'
       end) rest (Ok (JObj (sanitize_tables P f))) = Ok (JObj (sanitize_tables (P ++ rest) f)).
Proof.
  intros Hnd Hobj Hidx. revert P.
  induction rest as [|k rest IH]; intros P HPr Hr; [by rewrite app_nil_r|].
  inversion Hr as [|? ? [Hk Hkv] Hr']; subst.
  apply NoDup_app in HPr as (HP & HPk & Hkr). apply NoDup_cons in Hkr as [Hkr Hr''].
  assert (HkP : k ∉ P) by (intros Hin; apply (HPk k Hin); set_solver).
  apply list_elem_of_fmap in Hk as ([k' v] & Hk' & Hin). simpl in Hk'. subst k'.
  pose proof (obj_get_NoDup f k v Hnd Hin) as Hg.
  unfold tables_are_objects in Hobj. rewrite Forall_forall in Hobj.
  assert (Hv : v = JNull \/ exists tf, v = JObj tf) by (destruct (Hobj _ Hin) as [?|?]; naive_solver).
  replace (P ++ k :: rest) with ((P ++ [k]) ++ rest) by (by rewrite <- app_assoc).
  cbn [fold_left].
  assert (Hdup : NoDup ((P ++ [k]) ++ rest)).
  { rewrite <- app_assoc. apply NoDup_app. split; [done|]. split; [|by constructor].
    intros x Hx Hx'. apply (HPk x Hx). set_solver. }
  destruct Hv as [->|[tf ->]].
  - rewrite (sanitize_tables_ext P (P ++ [k])).
    + cbn. rewrite obj_get_sanitize_tables, bool_decide_true, Hg by set_solver. cbn.
      apply IH; done.
    + intros [k1 v1] Hin1. simpl. destruct (decide (k1 = k)) as [->|Hne].
      * right. pose proof (obj_get_NoDup f k v1 Hnd Hin1). assert (v1 = JNull) as -> by congruence. done.
      * left. set_solver.
  - rewrite <- IH by done.
    rewrite <- (obj_set_sanitize_tables P f k (JObj tf)) by done. f_equal.
    cbn. rewrite obj_get_sanitize_tables, bool_decide_false, Hg by done. cbn.
    rewrite obj_get_sanitize_tables.
    assert (Hi : obj_get f "index" = None \/ obj_get f "index" = Some JNull).
    { unfold declares_index_table in Hidx. destruct (obj_get f "index") as [vi|] eqn:Hgi; [|by left].
      right. apply obj_get_elem in Hgi. destruct (Hobj _ Hgi) as [Hver|[Hn|[tf' Ht]]]; simpl in *.
      - discriminate.
      - by subst.
      - subst. discriminate. }
    destruct Hi as [Hi|Hi]; rewrite Hi; case_bool_decide; reflexivity.
Qed.

Lemma validate_fold_index_table (f tf : list (string * jsv)) (rest : list string) :
  obj_get f "index" = Some (JObj tf) -> "index" ∈ rest ->
  fold_left
    (fun acc tableName =>
       sch ← acc;
       table ← get_prop sch tableName;
       match table with
       | JNull => Ok sch
       | _ =>
           index ← get_prop sch "index";
           _ ← assert (negb (truthy index) || is_string index || isArrayOfStrings index);
           tindex ← get_prop table "index";
           table' ← set_prop table "index" (arrayify tindex);
           set_prop sch tableName table'
       end) rest (Ok (JObj f)) = Err SchemaError.
Proof.
  intros Hi. induction rest as [|k rest IH]; intros Hin; [set_solver|].
  cbn [fold_left].
  destruct (obj_get f k) as [v|] eqn:Hk.
  - destruct (is_null v) eqn:Hn.
    + apply is_null_true in Hn. subst v.
      assert (k ≠ "index") by (intros ->; congruence).
      rewrite <- (IH ltac:(set_solver)). f_equal. cbn. rewrite Hk. reflexivity.
    + rewrite <- (validate_fold_Err rest SchemaError). f_equal.
      cbn. rewrite Hk. destruct v; try discriminate Hn; cbn; rewrite Hi; reflexivity.
  - rewrite <- (validate_fold_Err rest SchemaError). f_equal.
    cbn. rewrite Hk. unfold proto_get. case_bool_decide; cbn; rewrite Hi; reflexivity.
Qed.

Lemma sanitize_tables_fields (f : list (string * jsv)) :
  sanitize_tables (getTableNames (JObj f)) f = sanitize_fields f.
Proof.
  unfold sanitize_tables, sanitize_fields, getTableNames. cbn [truthy negb object_keys].
  apply map_ext_in. intros [k v] Hin. cbn [fst snd].
  destruct (decide (k = "version")) as [->|Hk].
  - rewrite (bool_decide_true ("version" = "version")) by done.
    rewrite bool_decide_false; [done|].
    rewrite list_elem_of_filter. naive_solver.
  - rewrite (bool_decide_false (k = "version")) by done. rewrite bool_decide_true; [done|].
    rewrite list_elem_of_filter. split; [done|].
    apply (list_elem_of_fmap_2 fst f (k, v)). by apply list_elem_of_In.
Qed.

Lemma obj_get_sanitize_fields (f : list (string * jsv)) (k : string) :
  obj_get (sanitize_fields f) k =
  if bool_decide (k = "version") then obj_get f k else sanitize_table <$> obj_get f k.
Proof.
  unfold sanitize_fields. induction f as [|[k0 v0] f IH]; [by case_bool_decide|].
  cbn [map fst snd].
  destruct (decide (k0 = "version")) as [H0|H0];
    [rewrite (bool_decide_true (k0 = "version")) by done|rewrite (bool_decide_false (k0 = "version")) by done];
    cbn [obj_get fst snd]; rewrite IH;
    destruct (decide (k0 = k)) as [->|Hk];
    try (rewrite (bool_decide_true (k = k)) by done);
    try (rewrite (bool_decide_false (k0 = k)) by done);
    repeat case_bool_decide; try done; naive_solver.
Qed.

Lemma keys_sanitize_fields (f : list (string * jsv)) : map fst (sanitize_fields f) = map fst f.
Proof.
  unfold sanitize_fields. induction f as [|[k v] f IH]; [done|].
  cbn [map]. rewrite IH. by case_bool_decide.
Qed.

Lemma obj_set_obj_set {A} (o : list (string * A)) (k : string) (v w : A) :
  obj_set (obj_set o k v) k w = obj_set o k w.
Proof.
  induction o as [|[k0 v0] o IH]; simpl.
  - by rewrite bool_decide_true.
  - case_bool_decide; simpl.
    + by rewrite bool_decide_true.
    + rewrite bool_decide_false by done. by rewrite IH.
Qed.

Lemma sanitize_table_idem (v : jsv) : sanitize_table (sanitize_table v) = sanitize_table v.
Proof.
  destruct v as [| | | | | |tf|]; try reflexivity. cbn [sanitize_table].
  rewrite obj_get_obj_set, bool_decide_true by done. cbn [default].
  rewrite obj_set_obj_set. by destruct (default JUndef (obj_get tf "index")).
Qed.

(** [validateAndSanitize(schema)] rejects with a [SchemaError] anything
    that is not an object whose [version] is a positive number. *)
Theorem validateAndSanitize_rejects_bad_version (schema : jsv) :
  valid_version schema = false -> validateAndSanitize schema = Err SchemaError.
Proof.
  intros Hv. unfold validateAndSanitize.
  destruct schema as [| |[]|n|s|l|f|bk]; cbn; rewrite ?andb_false_r; try reflexivity.
  - unfold valid_version in Hv.
    destruct (obj_get f "version") as [[| | |n| | | |]|]; cbn; try reflexivity.
    rewrite Hv. reflexivity.
  - by case_bool_decide.
Qed.

(** On a schema object with a positive numeric [version], distinct keys,
    every table defined by an object or [null], and no table named [index],
    [validateAndSanitize] succeeds and turns the [index] of every table
    definition into an array ([arrayify]); [null] tables and [version] are
    left as they are. *)
Theorem validateAndSanitize_ok (f : list (string * jsv)) :
  valid_version (JObj f) = true -> NoDup (map fst f) -> tables_are_objects f ->
  declares_index_table f = false ->
  validateAndSanitize (JObj f) = Ok (JObj (sanitize_fields f)).
Proof.
  intros Hv Hnd Hobj Hidx.
  pose proof (validate_fold_ok f [] (getTableNames (JObj f)) Hnd Hobj Hidx) as Hf.
  rewrite sanitize_tables_nil in Hf. cbn [app] in Hf. rewrite sanitize_tables_fields in Hf.
  unfold valid_version in Hv.
  destruct (obj_get f "version") as [[| | |n| | | |]|] eqn:Hver; try discriminate.
  unfold validateAndSanitize. cbn -[getTableNames]. rewrite Hver. cbn -[getTableNames]. rewrite Hv.
  apply Hf.
  - unfold getTableNames. cbn [truthy negb object_keys]. by apply NoDup_filter.
  - apply Forall_forall. intros k Hk. unfold getTableNames in Hk.
    cbn [truthy negb object_keys] in Hk. apply list_elem_of_filter in Hk. naive_solver.
Qed.

(** Sanitising is idempotent: on the schemas of [validateAndSanitize_ok],
    validating the sanitised schema again succeeds and changes nothing. *)
Theorem validateAndSanitize_idempotent (f : list (string * jsv)) :
  valid_version (JObj f) = true -> NoDup (map fst f) -> tables_are_objects f ->
  declares_index_table f = false ->
  validateAndSanitize (JObj (sanitize_fields f)) = Ok (JObj (sanitize_fields f)).
Proof.
  intros Hv Hnd Hobj Hidx.
  rewrite validateAndSanitize_ok.
  - f_equal. f_equal. unfold sanitize_fields. rewrite map_map. apply map_ext.
    intros [k v]. destruct (decide (k = "version")) as [Hk|Hk].
    + rewrite (bool_decide_true (k = "version")) by done. cbn [fst snd].
      rewrite (bool_decide_true (k = "version")) by done. done.
    + rewrite (bool_decide_false (k = "version")) by done. cbn [fst snd].
      rewrite (bool_decide_false (k = "version")) by done. by rewrite sanitize_table_idem.
  - unfold valid_version in *. by rewrite obj_get_sanitize_fields, bool_decide_true.
  - by rewrite keys_sanitize_fields.
  - unfold tables_are_objects, sanitize_fields in *. apply Forall_map.
    eapply Forall_impl; [exact Hobj|]. intros [k v] Hkv. cbn [fst snd] in *.
    case_bool_decide; [naive_solver|]. cbn [fst snd].
    destruct Hkv as [?|[->|[tf ->]]]; [done|by right; left|].
    right; right. by eexists.
  - unfold declares_index_table in *. rewrite obj_get_sanitize_fields, bool_decide_false by done.
    destruct (obj_get f "index") as [[| | | | | |tf|]|]; done.
Qed.

(** A schema that declares a table named [index] is always rejected with a
    [SchemaError]: the check of [validateAndSanitize] reads [schema.index],
    which is then that table's definition, an object that is neither a
    string nor an array of strings. *)
Theorem validateAndSanitize_rejects_index_table (f : list (string * jsv)) :
  valid_version (JObj f) = true -> declares_index_table f = true ->
  validateAndSanitize (JObj f) = Err SchemaError.
Proof.
  intros Hv Hidx. unfold declares_index_table in Hidx.
  destruct (obj_get f "index") as [[| | | | | |tf|]|] eqn:Hi; try discriminate.
  unfold valid_version in Hv.
  destruct (obj_get f "version") as [[| | |n| | | |]|] eqn:Hver; try discriminate.
  unfold validateAndSanitize. cbn -[getTableNames]. rewrite Hver. cbn -[getTableNames]. rewrite Hv.
  apply (validate_fold_index_table f tf); [done|].
  unfold getTableNames. cbn [truthy negb object_keys]. apply list_elem_of_filter.
  split; [done|]. apply (list_elem_of_fmap_2 fst f ("index", JObj tf)). by apply obj_get_elem.
Qed.

(** ** Schema differ: first version and re-added tables *)

Lemma js_set_from_NoDup {A} `{EqDecision A} (seen l : list A) :
  NoDup l -> (forall x, x ∈ l -> x ∉ seen) -> js_set_from seen l = seen ++ l.
Proof.
  revert seen. induction l as [|y l IH]; intros seen Hnd Hs; simpl; [by rewrite app_nil_r|].
  apply NoDup_cons in Hnd as [Hy Hnd].
  rewrite bool_decide_false by (apply Hs; set_solver).
  rewrite IH; [by rewrite <- app_assoc|done|].
  intros x Hx. rewrite elem_of_app, list_elem_of_singleton.
  intros [Hxs| ->]; [by apply (Hs x); [set_solver|]|done].
Qed.

Lemma get_prop_Err (v : jsv) (k : string) (e : exn) : get_prop v k = Err e -> e = TypeError.
Proof. destruct v; simpl; congruence. Qed.

Section DiffMoreProofs.
Variable diffArrays : jsv -> jsv -> jsv.
Variable same_ref : jsv -> jsv -> bool.

Lemma diff_fold_first (oldSchema : jsv) (f g : list (string * jsv)) (dr : diff_result) :
  truthy oldSchema = false ->
  (forall kv, kv ∈ g -> obj_get f kv.1 = Some kv.2) ->
  fold_left (diff_step diffArrays same_ref oldSchema (JObj f))
            (filter (fun k => k ≠ "version") (map fst g)) (Ok dr) =
  Ok (mkDiff (add dr ++ filter (fun kv => kv.1 ≠ "version" /\ is_null kv.2 = false) g)
             (change dr) (remove dr)
             (rebuild dr ++ map fst (filter (fun kv => kv.1 ≠ "version" /\ is_null kv.2 = false) g))).
Proof.
  intros Hold. revert dr. induction g as [|[k v] g IH]; intros dr Hg.
  - cbn. rewrite !app_nil_r. by destruct dr.
  - assert (Hk : obj_get f k = Some v) by (apply (Hg (k, v)); set_solver).
    assert (Hg' : forall kv, kv ∈ g -> obj_get f kv.1 = Some kv.2) by (intros kv ?; apply Hg; set_solver).
    cbn [map fst]. rewrite filter_cons. rewrite (filter_cons _ (k, v)). cbn [fst snd].
    destruct (decide (k ≠ "version")) as [Hv|Hv].
    + cbn [fold_left].
      destruct (is_null v) eqn:Hn.
      * rewrite (decide_False (P := k ≠ "version" /\ true = false)) by naive_solver.
        apply is_null_true in Hn. subst v.
        assert (Hs : diff_step diffArrays same_ref oldSchema (JObj f) (Ok dr) k = Ok dr).
        { unfold diff_step. rewrite Hold. cbn. rewrite Hk. reflexivity. }
        rewrite Hs. by apply IH.
      * rewrite (decide_True (P := k ≠ "version" /\ false = false)) by naive_solver.
        assert (Hs : diff_step diffArrays same_ref oldSchema (JObj f) (Ok dr) k =
                     Ok (mkDiff (add dr ++ [(k, v)]) (change dr) (remove dr) (rebuild dr ++ [k]))).
        { unfold diff_step. rewrite Hold. cbn. rewrite Hk. cbn. rewrite Hn. reflexivity. }
        rewrite Hs, IH by done. cbn [add change remove rebuild map fst].
        by rewrite <- !app_assoc.
    + rewrite (decide_False (P := k ≠ "version" /\ is_null v = false)) by naive_solver.
      by apply IH.
Qed.

(** When no schema preceded ([oldSchema] falsy, as for the first version of
    a database), [diff] adds every table the new schema does not map to
    [null], with its definition and in the schema's order, marks each of
    them for rebuild, and changes and removes nothing. *)
Theorem diff_first_version (oldSchema : jsv) (f : list (string * jsv)) :
  truthy oldSchema = false -> NoDup (map fst f) ->
  diff diffArrays same_ref oldSchema (JObj f) =
  Ok (mkDiff (filter (fun kv => kv.1 ≠ "version" /\ is_null kv.2 = false) f) [] []
             (map fst (filter (fun kv => kv.1 ≠ "version" /\ is_null kv.2 = false) f))).
Proof.
  intros Hold Hnd. unfold diff. rewrite Hold. cbn [mbind].
  assert (Hnames : getTableNames oldSchema ++ getTableNames (JObj f) =
                   filter (fun k => k ≠ "version") (map fst f)).
  { unfold getTableNames. rewrite Hold. reflexivity. }
  cbv zeta. rewrite Hnames.
  rewrite js_set_from_NoDup; [|by apply NoDup_filter|set_solver].
  rewrite (diff_fold_first oldSchema f f); [done|done|].
  intros [k v] Hkv. by apply obj_get_NoDup.
Qed.

Lemma diffTables_TypeError (o n : jsv) (e : exn) :
  diffTables diffArrays same_ref o n = Err e -> e = TypeError.
Proof.
  unfold diffTables.
  destruct (get_prop n "index") as [ni|e1] eqn:H1; simpl; [|intros [= <-]; by eapply get_prop_Err].
  destruct (truthy ni);
    [destruct (get_prop o "index") eqn:H2; simpl; [|intros [= <-]; by eapply get_prop_Err]|simpl].
  all: destruct (get_prop n "path") as [np|e3] eqn:H3; simpl; [|intros [= <-]; by eapply get_prop_Err].
  all: destruct (truthy np);
    [destruct (get_prop o "path") eqn:H4; simpl; [discriminate|intros [= <-]; by eapply get_prop_Err]
    |simpl; discriminate].
Qed.

Lemma diff_step_TypeError (o n : jsv) (dr : diff_result) (t : string) (e : exn) :
  diff_step diffArrays same_ref o n (Ok dr) t = Err e -> e = TypeError.
Proof.
  unfold diff_step. simpl.
  destruct (if truthy o then key_in o t else Ok false) as [oh|e1] eqn:Hoh; simpl.
  2: { intros [= <-]. destruct (truthy o); [|discriminate]. destruct o; simpl in Hoh; congruence. }
  destruct (get_prop n t) as [nv|e2] eqn:Hnv; simpl; [|intros [= <-]; by eapply get_prop_Err].
  destruct oh, (is_null nv), (truthy nv); simpl; try discriminate.
  all: destruct (get_prop o t) as [ov|e3] eqn:Hov; simpl; [|intros [= <-]; by eapply get_prop_Err].
  all: destruct (diffTables diffArrays same_ref ov nv) as [tc|e4] eqn:Hd; simpl;
         [discriminate|intros [= <-]; by eapply diffTables_TypeError].
Qed.

Lemma diff_fold_TypeError (o n : jsv) (names : list string) (dr : diff_result) (e : exn) :
  fold_left (diff_step diffArrays same_ref o n) names (Ok dr) = Err e -> e = TypeError.
Proof.
  revert dr. induction names as [|k names IH]; intros dr; cbn [fold_left]; [discriminate|].
  destruct (diff_step diffArrays same_ref o n (Ok dr) k) as [dr1|e1] eqn:Hs; [apply IH|].
  rewrite diff_step_Err. intros [= <-]. by eapply diff_step_TypeError.
Qed.

Lemma diff_fold_reaches (o n : jsv) (names : list string) (dr : diff_result) (t : string) :
  t ∈ names -> (forall dr, exists e, diff_step diffArrays same_ref o n (Ok dr) t = Err e) ->
  exists e, fold_left (diff_step diffArrays same_ref o n) names (Ok dr) = Err e.
Proof.
  revert dr. induction names as [|k names IH]; intros dr Hin Ht; [set_solver|]. cbn [fold_left].
  destruct (decide (k = t)) as [->|Hne].
  - destruct (Ht dr) as [e He]. rewrite He, diff_step_Err. eauto.
  - destruct (diff_step diffArrays same_ref o n (Ok dr) k) as [dr1|e1].
    + apply IH; [set_solver|done].
    + rewrite diff_step_Err. eauto.
Qed.

(** A table that the old schema deletes ([t: null]) and that the new schema
    defines again with an [index] or a [path] makes [diff] throw a
    [TypeError]: [t in oldSchema] holds, so the loop calls
    [diffTables(null, tableDef)], which reads [null.index] or [null.path]. *)
Theorem diff_readd_deleted_table_TypeError (oldF newF tf : list (string * jsv)) (t : string) :
  t ≠ "version" -> obj_get oldF t = Some JNull -> obj_get newF t = Some (JObj tf) ->
  truthy (default JUndef (obj_get tf "index")) || truthy (default JUndef (obj_get tf "path")) = true ->
  diff diffArrays same_ref (JObj oldF) (JObj newF) = Err TypeError.
Proof.
  intros Hv Ho Hn Ht.
  change (diff diffArrays same_ref (JObj oldF) (JObj newF)) with
    (fold_left (diff_step diffArrays same_ref (JObj oldF) (JObj newF))
       (js_set_from [] (getTableNames (JObj oldF) ++ getTableNames (JObj newF)))
       (Ok (mkDiff [] [] [] []))).
  destruct (diff_fold_reaches (JObj oldF) (JObj newF)
              (js_set_from [] (getTableNames (JObj oldF) ++ getTableNames (JObj newF)))
              (mkDiff [] [] [] []) t) as [e He].
  - destruct (js_set_from_spec [] (getTableNames (JObj oldF) ++ getTableNames (JObj newF))
                NoDup_nil_2) as [_ Hs].
    apply Hs. right. apply elem_of_app. right.
    unfold getTableNames. cbn [truthy negb object_keys]. apply list_elem_of_filter.
    split; [done|]. apply (list_elem_of_fmap_2 fst newF (t, JObj tf)). by apply obj_get_elem.
  - intros dr. unfold diff_step. cbn.
    rewrite bool_decide_true
      by (apply (list_elem_of_fmap_2 fst oldF (t, JNull)); by apply obj_get_elem).
    rewrite Hn. cbn. rewrite Ho. cbn.
    destruct (obj_get tf "index") as [i|]; destruct (obj_get tf "path") as [p|]; cbn in Ht |- *;
      try destruct (truthy i); try destruct (truthy p); cbn in Ht |- *; try discriminate; eauto.
  - rewrite He. pose proof (diff_fold_TypeError _ _ _ _ _ He) as ->. reflexivity.
Qed.

End DiffMoreProofs.

(** ** Indexing and unindexing one file *)

Section FileProofs.
Context (JSON_parse : string -> option record) (put_ok : string -> record -> bool)
  (delete_ok : string -> string -> bool).

(** [readAndIndexFile(db, archive, filepath)] never throws and touches at
    most one record: either it returns [false] and leaves the store as it
    was (read, parse, validation or put failure, or no table matches), or
    it returns the name of the first table whose [isRecordFile] accepts the
    path and stores, under the key [archive.url + filepath] of that table, a
    record whose [_url] is that key and whose [_origin] is the archive's url. *)
Theorem readAndIndexFile_effect (d : db) (a : archive) (p : string) (s : store) :
  readAndIndexFile JSON_parse put_ok d a p s = (TFalse, s) \/
  exists t r, first_matching_table (tables d) p = Some t /\
    readAndIndexFile JSON_parse put_ok d a p s =
      (TName (t_name t), <[(t_name t, a_url a +:+ p) := r]> s) /\
    r !! "_url" = Some (a_url a +:+ p) /\ r !! "_origin" = Some (a_url a).
Proof.
  unfold readAndIndexFile, readAndIndexFile_try.
  destruct (a_readFile a p) as [content|]; simpl; [|by left].
  destruct (JSON_parse content) as [r0|]; simpl; [|by left].
  destruct (first_matching_table (tables d) p) as [t|] eqn:Ht; [|by left].
  destruct (match t_validator t with Some validator => validator r0 | None => Ok r0 end)
    as [r1|e]; simpl; [|by left].
  destruct (put_ok _ _); simpl; [|by left].
  right. eexists t, _. split; [done|]. split; [reflexivity|].
  split.
  - rewrite lookup_insert_ne by done. by rewrite lookup_insert_eq.
  - by rewrite lookup_insert_eq.
Qed.

(** Unindexing a file right after indexing it succeeded targets the record
    just stored.  When [IDB.delete] succeeds, it returns the same table name
    and the store is the one before indexing, without the file's key; when
    [IDB.delete] throws, it returns [false] and the record just stored
    stays. *)
Theorem unindexFile_after_readAndIndexFile (d : db) (a : archive) (p n : string) (s s1 : store) :
  readAndIndexFile JSON_parse put_ok d a p s = (TName n, s1) ->
  (delete_ok n (a_url a +:+ p) = true ->
     unindexFile delete_ok d a p s1 = (TName n, delete (n, a_url a +:+ p) s)) /\
  (delete_ok n (a_url a +:+ p) = false ->
     unindexFile delete_ok d a p s1 = (TFalse, s1) /\ is_Some (s1 !! (n, a_url a +:+ p))).
Proof.
  intros Hr. destruct (readAndIndexFile_effect d a p s) as [H|(t & r & Ht & H & _)];
    rewrite H in Hr; [discriminate|].
  injection Hr as <- <-. unfold unindexFile, unindexFile_try. rewrite Ht. split.
  - intros Hok. rewrite Hok. by rewrite delete_insert_eq.
  - intros Hko. rewrite Hko. split; [done|]. rewrite lookup_insert_eq. by eexists.
Qed.

Lemma run_writes_foreign (d : db) (a : archive) (ups : list (string * update)) (s : store) (t k : string) :
  (forall p, k ≠ a_url a +:+ p) ->
  run_writes (map (fun ku => path_write JSON_parse put_ok delete_ok d a ku.2) ups) s !! (t, k) = s !! (t, k).
Proof.
  intros Hk. revert s. induction ups as [|[q u] ups IH]; intros s; [done|].
  cbn [map snd]. rewrite run_writes_cons, IH, apply_write_lookup.
  assert (Hw : write_at (t, k) (path_write JSON_parse put_ok delete_ok d a u) = None).
  { unfold path_write. case_bool_decide.
    - destruct (unindexFile_try _ _ _ _) as [[tb|]|e]; simpl; try done.
      rewrite bool_decide_false; [done|]. intros Heq. injection Heq as _ Heq. by apply (Hk (u_path u)).
    - destruct (readAndIndexFile_try _ _ _ _ _) as [[[n r]|]|e]; simpl; try done.
      rewrite bool_decide_false; [done|]. intros Heq. injection Heq as _ Heq. by apply (Hk (u_path u)). }
  by rewrite Hw.
Qed.

(** An indexing pass of an archive is confined to that archive: it changes
    no record whose key does not start with the archive's url, no IndexMeta
    record of another archive, and every event it emits names the archive. *)
Theorem indexArchive_isolation (d : db) (a : archive) :
  (forall t k, (forall p, k ≠ a_url a +:+ p) ->
     stores (indexArchive JSON_parse put_ok delete_ok d a) !! (t, k) = stores d !! (t, k)) /\
  (forall url, url ≠ a_url a ->
     indexMeta (indexArchive JSON_parse put_ok delete_ok d a) !! url = indexMeta d !! url) /\
  (exists es, events (indexArchive JSON_parse put_ok delete_ok d a) = events d ++ es /\
     Forall (fun e => match e with IndexUpdated _ u _ | IndexesUpdated u _ => u = a_url a end) es).
Proof.
  destruct (isOpen d) eqn:Ho;
    [destruct (idx d) eqn:Hi; [destruct (decide (stored_version d a < a_version a)) as [Hlt|Hge]|]|].
  2-4: rewrite indexArchive_skip by first [by left | by right; left | right; right; lia];
       split; [done|]; split; [done|]; exists []; by rewrite app_nil_r.
  rewrite indexArchive_run by done. cbn [stores indexMeta events].
  split; [|split].
  - intros t k Hk. by apply run_writes_foreign.
  - intros url Hu. unfold IDB_update_meta. by rewrite lookup_insert_ne.
  - eexists. split; [reflexivity|]. apply Forall_app. split.
    + apply Forall_forall. intros e He. apply list_elem_of_fmap in He as (n & -> & _). done.
    + by repeat constructor.
Qed.

(** After an indexing pass on an open, uncorrupted db, [waitTillIndexed]
    for the same archive version returns at once: the pass either found the
    index up to date or persisted the archive's version. *)
Theorem waitTillIndexed_after_indexArchive (d : db) (a : archive) :
  isOpen d = true -> idx d = true ->
  waitTillIndexed (indexArchive JSON_parse put_ok delete_ok d a) a = None.
Proof.
  intros Ho Hi. destruct (decide (stored_version d a < a_version a)) as [Hlt|Hge].
  - rewrite indexArchive_run by done. unfold waitTillIndexed, stored_version. cbn [indexMeta].
    unfold IDB_update_meta. rewrite lookup_insert_eq. cbn [m_version].
    rewrite bool_decide_true by lia. done.
  - rewrite indexArchive_skip by (right; right; lia). unfold waitTillIndexed.
    rewrite bool_decide_true by lia. done.
Qed.

(** A [waitTillIndexed] that has to wait (it subscribed [onIndex] with the
    archive's version as target) is released by the next indexing pass of
    that archive on an open, uncorrupted db: the pass appends an
    'indexes-updated' event for the archive's url and version. *)
Theorem waitTillIndexed_released_by_indexArchive (d : db) (a : archive) (target : Z) :
  isOpen d = true -> idx d = true -> waitTillIndexed d a = Some target ->
  exists es, events (indexArchive JSON_parse put_ok delete_ok d a) = events d ++ es /\
    Exists (fun e => onIndex_resolves a target e = true) es.
Proof.
  intros Ho Hi Hw. unfold waitTillIndexed in Hw.
  case_bool_decide as Hle; [discriminate|]. injection Hw as <-.
  rewrite indexArchive_run by (done || lia). cbn [events].
  eexists. split; [reflexivity|]. apply Exists_app. right. apply Exists_cons. left.
  cbn. rewrite !bool_decide_true by (done || lia). done.
Qed.

End FileProofs.

(** ** Removing an archive *)

Section RemoveProofs.
Variable listRecordFiles : table -> archive -> list (table * string).

Lemma delete_fold_lookup (ms : list (table * string)) (s : store) (k : string * string) :
  fold_left (fun s m => delete (t_name m.1, m.2) s) ms s !! k =
  if bool_decide (k ∈ map (fun m => (t_name m.1, m.2)) ms) then None else s !! k.
Proof.
  revert s. induction ms as [|m ms IH]; intros s; cbn [fold_left map].
  - rewrite bool_decide_false by set_solver. done.
  - rewrite IH. destruct (decide (k = (t_name m.1, m.2))) as [->|Hne].
    + rewrite lookup_delete_eq. rewrite (bool_decide_true (_ ∈ _ :: _)) by set_solver.
      by case_bool_decide.
    + rewrite lookup_delete_ne by done.
      destruct (decide (k ∈ map (fun m => (t_name m.1, m.2)) ms)).
      * rewrite !bool_decide_true by set_solver. done.
      * rewrite !bool_decide_false by set_solver. done.
Qed.

(** [unindexArchive(db, archive)] deletes exactly the records that the
    tables' [listRecordFiles(archive)] report, keeps every other record, and
    deletes the archive's IndexMeta record and no other. *)
Theorem unindexArchive_spec (d : db) (a : archive) :
  (forall k, stores (unindexArchive listRecordFiles d a) !! k =
     if bool_decide (k ∈ map (fun m => (t_name m.1, m.2)) (scanArchiveForRecords listRecordFiles d a))
     then None else stores d !! k) /\
  (forall url, indexMeta (unindexArchive listRecordFiles d a) !! url =
     if bool_decide (url = a_url a) then None else indexMeta d !! url).
Proof.
  split.
  - intros k. unfold unindexArchive. cbn [stores set_indexMeta set_stores]. apply delete_fold_lookup.
  - intros url. unfold unindexArchive. cbn [indexMeta set_indexMeta set_stores].
    case_bool_decide as Hu; [subst; apply lookup_delete_eq|by apply lookup_delete_ne].
Qed.

(** [removeArchive] closes the archive's current stream, but a
    [watchArchive] call suspended at [await archive._loadPromise] is not
    cancelled: when it resumes it opens a new stream and stores it in
    [archive.fileEvents], so the removed archive is watched again. *)
Theorem removeArchive_keeps_pending_watch (d : db) (a : archive) (w : watch_state) :
  (0 < suspended w)%nat ->
  fileEvents (removeArchive listRecordFiles d a w).2 = None /\
  fileEvents (watchArchive_resume (removeArchive listRecordFiles d a w).2) = Some (next_stream w) /\
  next_stream w ∈ open_streams (watchArchive_resume (removeArchive listRecordFiles d a w).2).
Proof.
  intros Hs. destruct (suspended w) as [|n] eqn:Hn; [lia|].
  unfold removeArchive, unwatchArchive. cbn [snd].
  destruct (fileEvents w) as [s|] eqn:Hf; unfold watchArchive_resume; cbn;
    rewrite ?Hn, ?Hf; cbn; repeat split; set_solver.
Qed.

End RemoveProofs.

(** ** Subscriptions without [_loadPromise] *)

(** On a handle without [_loadPromise] (Beaker's DatArchive), whatever the
    interleaving of [watchArchive] and [unwatchArchive] calls, the handle
    holds at most one open stream, the one named by [archive.fileEvents]. *)
Theorem watch_single_subscription_without_loadPromise (w : watch_state) :
  rtc (watch_step false) watch_init w -> single_subscription w.
Proof.
  revert w. apply (rtc_ind_r (R := watch_step false) single_subscription watch_init).
  - unfold single_subscription. done.
  - intros w1 w2 _ Hs IH. destruct IH as [Hsus Hf]. inversion Hs as [w0 Hw0|w0 Hlt Hw0|w0 Hw0]; subst.
    + unfold watchArchive_call. destruct (fileEvents w1) as [s|] eqn:Hfe; [split; [done|by rewrite Hfe]|].
      unfold subscribe, single_subscription. cbn. split; [done|]. by rewrite Hf.
    + lia.
    + unfold unwatchArchive. destruct (fileEvents w1) as [s|] eqn:Hfe; [|split; [done|by rewrite Hfe]].
      unfold single_subscription. cbn. split; [done|]. rewrite Hf. cbn.
      by destruct (decide (s ≠ s)).
Qed.

(** ** Applying a schema diff *)

Section FoldRes.
Context {A B : Type} (step : res A -> B -> res A).
Hypothesis step_Err : forall e y, step (Err e) y = Err e.

Lemma fold_res_Err (l : list B) (e : exn) : fold_left step l (Err e) = Err e.
Proof. induction l as [|y l IH]; cbn [fold_left]; [done|]. by rewrite step_Err. Qed.

Lemma fold_res_only (P : exn -> Prop) (l : list B) (a : A) (e : exn) :
  (forall a y e, step (Ok a) y = Err e -> P e) ->
  fold_left step l (Ok a) = Err e -> P e.
Proof.
  intros HP. revert a. induction l as [|y l IH]; intros a; cbn [fold_left]; [discriminate|].
  destruct (step (Ok a) y) as [a1|e1] eqn:Hs; [apply IH|].
  rewrite fold_res_Err. intros [= <-]. by eapply HP.
Qed.

Lemma fold_res_reaches (l : list B) (x : B) (a : A) :
  x ∈ l -> (forall a, exists e, step (Ok a) x = Err e) ->
  exists e, fold_left step l (Ok a) = Err e.
Proof.
  revert a. induction l as [|y l IH]; intros a Hin Hx; [set_solver|]. cbn [fold_left].
  apply elem_of_cons in Hin as [->|Hin].
  - destruct (Hx a) as [e He]. rewrite He, fold_res_Err. eauto.
  - destruct (step (Ok a) y) as [a1|e1]; [by apply IH|]. rewrite fold_res_Err. eauto.
Qed.

End FoldRes.

Lemma js_forEach_TypeError (fn : list store_call -> jsv -> res (list store_call))
    (arr : jsv) (calls : list store_call) (e : exn) :
  (forall c v e, fn c v = Err e -> e = TypeError) ->
  js_forEach fn arr calls = Err e -> e = TypeError.
Proof.
  intros Hfn. destruct arr as [| | | | |l| |]; cbn; try congruence.
  intros H. eapply (fold_res_only (fun acc v => calls ← acc; fn calls v) ltac:(done)
                     (fun e => e = TypeError)); [|exact H].
  intros c v e' H'. by eapply Hfn.
Qed.

Lemma addIndex_TypeError (c : list store_call) (v : jsv) (e : exn) :
  addIndex c v = Err e -> e = TypeError.
Proof. destruct v; cbn; try case_bool_decide; congruence. Qed.

Lemma applyDiff_add_TypeError (calls : list upgrade_call) (entry : string * jsv) (e : exn) :
  applyDiff_add (Ok calls) entry = Err e -> e = TypeError.
Proof.
  unfold applyDiff_add. cbn.
  destruct (get_prop entry.2 "index") as [index|e1] eqn:Hi; cbn; [|intros [= <-]; by eapply get_prop_Err].
  destruct (js_forEach addIndex index []) as [sc|e2] eqn:Hf; cbn; [discriminate|].
  intros [= <-]. eapply js_forEach_TypeError; [|exact Hf]. apply addIndex_TypeError.
Qed.

(** A table defined without an [index], or with an [index] that is neither
    a string nor an array, passes [validateAndSanitize] ([arrayify] turns
    the value into a one-element array), but applying the [diff] that
    creates the sanitised schema from scratch throws a [TypeError]:
    [addIndex] calls [split] on that element. *)
Theorem applyDiff_first_version_bad_index_TypeError (diffArrays : jsv -> jsv -> jsv)
    (same_ref : jsv -> jsv -> bool) (f tf : list (string * jsv)) (t : string) :
  valid_version (JObj f) = true -> NoDup (map fst f) -> tables_are_objects f ->
  declares_index_table f = false -> t ≠ "version" -> obj_get f t = Some (JObj tf) ->
  match default JUndef (obj_get tf "index") with JStr _ | JArr _ => False | _ => True end ->
  exists s, validateAndSanitize (JObj f) = Ok s /\
    (dr ← diff diffArrays same_ref JUndef s; applyDiff dr) = Err TypeError.
Proof.
  intros Hv Hnd Hobj Hidx Ht Hft Hbad.
  exists (JObj (sanitize_fields f)). split; [by apply validateAndSanitize_ok|].
  rewrite diff_first_version; [|done|by rewrite keys_sanitize_fields].
  cbn [mbind res_mbind res_bind]. unfold applyDiff. cbn [add remove change].
  destruct (fold_res_reaches applyDiff_add ltac:(done)
              (filter (fun kv => kv.1 ≠ "version" /\ is_null kv.2 = false) (sanitize_fields f))
              (t, sanitize_table (JObj tf)) (map DeleteObjectStore [])) as [e He].
  - apply list_elem_of_filter. split; [done|].
    apply list_elem_of_fmap. exists (t, JObj tf). split.
    + cbn. by rewrite bool_decide_false.
    + by apply obj_get_elem.
  - intros calls. unfold applyDiff_add. cbn.
    rewrite obj_get_obj_set, bool_decide_true by done. cbn.
    destruct (default JUndef (obj_get tf "index")); try contradiction; cbn; eauto.
  - rewrite He. cbn [mbind res_mbind res_bind].
    pose proof (fold_res_only applyDiff_add ltac:(done) (fun e => e = TypeError) _ _ _
                  applyDiff_add_TypeError He) as ->.
    reflexivity.
Qed.

(** ** The further properties at sample inputs *)

Lemma getActiveTableNames_spec_witness :
  exists names, getActiveTableNames sample_dbobj = Ok names /\ NoDup names /\
    ("posts" ∈ names <-> exists v, last_decl sample_schemas "posts" = Some v /\ v ≠ JNull).
Proof.
  destruct (getActiveTableNames_spec sample_dbobj sample_schemas ltac:(reflexivity)
              ltac:(repeat constructor)) as (names & H1 & H2 & H3).
  exists names. split; [exact H1|]. split; [exact H2|]. apply H3.
Defined.

Lemma addTables_marks_active_witness :
  exists dbo', addTables sample_dbobj = Ok dbo' /\ obj_get dbo' "y" = Some (JBool true).
Proof.
  destruct (addTables_marks_active sample_dbobj sample_schemas ["x"; "y"; "posts"]
              ltac:(reflexivity) ltac:(repeat constructor) ltac:(vm_compute; reflexivity))
    as (dbo' & H1 & H2).
  exists dbo'. split; [exact H1|]. rewrite H2. vm_compute. reflexivity.
Defined.

Lemma removeTables_after_addTables_witness :
  exists dbo'', removeTables (sample_dbobj ++ [("x", JBool true); ("y", JBool true); ("posts", JBool true)]) = Ok dbo'' /\
    obj_get dbo'' "posts" = None /\ obj_get dbo'' "name" = Some (JStr "db").
Proof.
  destruct (removeTables_after_addTables sample_dbobj
              (sample_dbobj ++ [("x", JBool true); ("y", JBool true); ("posts", JBool true)])
              sample_schemas ["x"; "y"; "posts"]
              ltac:(reflexivity) ltac:(repeat constructor) ltac:(vm_compute; reflexivity)
              ltac:(apply (bool_decide_eq_false_1 _); vm_compute; reflexivity)
              ltac:(vm_compute; reflexivity))
    as (dbo'' & H1 & H2).
  exists dbo''. split; [exact H1|]. rewrite !H2. vm_compute. split; reflexivity.
Defined.

Lemma addIndex_spec_witness :
  addIndex [] (JStr "title+tags") = Ok [CreateIndex "title+tags" (JArr [JStr "title"; JStr "tags"]) true] /\
  addIndex [] (JNum 5) = Err TypeError.
Proof.
  destruct (addIndex_spec [] "title+tags") as [_ H2].
  split; [vm_compute; reflexivity|]. apply H2. reflexivity.
Defined.

Lemma validateAndSanitize_rejects_bad_version_witness :
  validateAndSanitize (JObj [("version", JStr "1"); ("posts", JObj [])]) = Err SchemaError.
Proof. apply validateAndSanitize_rejects_bad_version. reflexivity. Defined.

Lemma validateAndSanitize_ok_witness :
  validateAndSanitize (JObj sample_schema_fields) = Ok (JObj (sanitize_fields sample_schema_fields)).
Proof.
  apply validateAndSanitize_ok.
  - reflexivity.
  - apply (bool_decide_eq_true_1 _). vm_compute. reflexivity.
  - unfold tables_are_objects, sample_schema_fields.
    constructor; [left; reflexivity|].
    constructor; [right; right; eexists; reflexivity|].
    constructor; [right; left; reflexivity|]. constructor.
  - reflexivity.
Defined.

Lemma validateAndSanitize_idempotent_witness :
  validateAndSanitize (JObj (sanitize_fields sample_schema_fields)) =
  Ok (JObj (sanitize_fields sample_schema_fields)).
Proof.
  apply validateAndSanitize_idempotent.
  - reflexivity.
  - apply (bool_decide_eq_true_1 _). vm_compute. reflexivity.
  - unfold tables_are_objects, sample_schema_fields.
    constructor; [left; reflexivity|].
    constructor; [right; right; eexists; reflexivity|].
    constructor; [right; left; reflexivity|]. constructor.
  - reflexivity.
Defined.

Lemma validateAndSanitize_rejects_index_table_witness :
  validateAndSanitize (JObj schema_index_table_fields) = Err SchemaError.
Proof. apply validateAndSanitize_rejects_index_table; reflexivity. Defined.

Lemma diff_first_version_witness :
  diff sample_diffArrays sample_same_ref JUndef (JObj sample_schema_fields) =
  Ok (mkDiff [("posts", JObj [("path", JStr "/posts/*.json"); ("index", JStr "title+tags")])] [] []
             ["posts"]).
Proof.
  rewrite diff_first_version.
  - vm_compute. reflexivity.
  - reflexivity.
  - apply (bool_decide_eq_true_1 _). vm_compute. reflexivity.
Defined.

Lemma diff_readd_deleted_table_TypeError_witness :
  diff sample_diffArrays sample_same_ref (JObj [("version", JNum 2); ("posts", JNull)])
       (JObj [("version", JNum 3); ("posts", JObj [("index", JStr "title")])]) = Err TypeError.
Proof.
  apply (diff_readd_deleted_table_TypeError sample_diffArrays sample_same_ref _ _ [("index", JStr "title")] "posts");
    try reflexivity. discriminate.
Defined.

Lemma unindexFile_after_readAndIndexFile_witness :
  unindexFile sample_delete_ok (sample_db true 0 []) sample_archive "/posts/a.json"
    (readAndIndexFile sample_parse sample_put_ok (sample_db true 0 []) sample_archive "/posts/a.json"
       (stores (sample_db true 0 []))).2 =
  (TName "posts", delete ("posts", "dat://sample/posts/a.json") (stores (sample_db true 0 []))) /\
  fst (unindexFile sample_delete_fails (sample_db true 0 []) sample_archive "/posts/a.json"
    (readAndIndexFile sample_parse sample_put_ok (sample_db true 0 []) sample_archive "/posts/a.json"
       (stores (sample_db true 0 []))).2) = TFalse.
Proof.
  set (s1 := (readAndIndexFile sample_parse sample_put_ok (sample_db true 0 []) sample_archive
                "/posts/a.json" (stores (sample_db true 0 []))).2).
  assert (Hr : readAndIndexFile sample_parse sample_put_ok (sample_db true 0 []) sample_archive
                 "/posts/a.json" (stores (sample_db true 0 [])) = (TName "posts", s1))
    by (vm_compute; reflexivity).
  split.
  - apply (unindexFile_after_readAndIndexFile sample_parse sample_put_ok sample_delete_ok
             (sample_db true 0 []) sample_archive "/posts/a.json" "posts" _ s1 Hr).
    reflexivity.
  - refine (f_equal fst (proj1 (proj2 (unindexFile_after_readAndIndexFile sample_parse sample_put_ok
             sample_delete_fails (sample_db true 0 []) sample_archive "/posts/a.json" "posts" _ s1 Hr)
             _))).
    reflexivity.
Defined.

Lemma indexArchive_isolation_witness :
  stores (indexArchive sample_parse sample_put_ok sample_delete_ok (sample_db true 0 []) sample_archive)
    !! ("posts", "dat://other/posts/a.json") =
  stores (sample_db true 0 []) !! ("posts", "dat://other/posts/a.json").
Proof.
  apply (proj1 (indexArchive_isolation sample_parse sample_put_ok sample_delete_ok (sample_db true 0 []) sample_archive)).
  intros p Hp. vm_compute in Hp. congruence.
Defined.

Lemma waitTillIndexed_after_indexArchive_witness :
  waitTillIndexed (sample_db true 0 []) sample_archive = Some 5 /\
  waitTillIndexed (indexArchive sample_parse sample_put_ok sample_delete_ok (sample_db true 0 []) sample_archive)
    sample_archive = None.
Proof.
  split; [vm_compute; reflexivity|].
  apply waitTillIndexed_after_indexArchive; reflexivity.
Defined.

Lemma waitTillIndexed_released_by_indexArchive_witness :
  exists es, events (indexArchive sample_parse sample_put_ok sample_delete_ok (sample_db true 0 []) sample_archive) =
    events (sample_db true 0 []) ++ es /\
    Exists (fun e => onIndex_resolves sample_archive 5 e = true) es.
Proof.
  apply waitTillIndexed_released_by_indexArchive; [reflexivity|reflexivity|vm_compute; reflexivity].
Defined.

Lemma removeArchive_keeps_pending_watch_witness :
  fileEvents (watchArchive_resume
    (removeArchive (fun _ _ => []) (sample_db true 0 []) sample_archive
       (watchArchive_call true watch_init)).2) = Some 0%nat.
Proof.
  destruct (removeArchive_keeps_pending_watch (fun _ _ => []) (sample_db true 0 []) sample_archive
              (watchArchive_call true watch_init) ltac:(cbn; lia)) as (_ & H & _).
  exact H.
Defined.

Lemma watch_single_subscription_without_loadPromise_witness :
  single_subscription (watchArchive_call false (unwatchArchive (watchArchive_call false watch_init))).
Proof.
  apply watch_single_subscription_without_loadPromise.
  eapply rtc_r; [|apply step_watch].
  eapply rtc_r; [|apply step_unwatch].
  eapply rtc_r; [|apply step_watch].
  apply rtc_refl.
Defined.

Lemma applyDiff_first_version_bad_index_TypeError_witness :
  exists s, validateAndSanitize (JObj [("version", JNum 1); ("posts", JObj [("path", JStr "/posts/*.json")])]) = Ok s /\
    (dr ← diff sample_diffArrays sample_same_ref JUndef s; applyDiff dr) = Err TypeError.
Proof.
  apply (applyDiff_first_version_bad_index_TypeError sample_diffArrays sample_same_ref _ [("path", JStr "/posts/*.json")] "posts").
  - reflexivity.
  - apply (bool_decide_eq_true_1 _). vm_compute. reflexivity.
  - constructor; [left; reflexivity|]. constructor; [right; right; eexists; reflexivity|]. constructor.
  - reflexivity.
  - discriminate.
  - reflexivity.
  - exact I.
Defined.
